(** * Verification of the IP enrichment pipeline (pkg/enricher/main.go)

    A shallow embedding of [Enricher.EnrichIP] and of the functions it
    calls, followed by the properties of the pipeline: the abuse-contact
    fallback, the sentinel policy, the short-circuits of the holder and
    geolocation steps, and the whois e-mail extraction. *)

From Stdlib Require Import Strings.String Strings.Ascii.
From stdpp Require Import gmap strings list sorting.

Local Open Scope string_scope.

(** ** Go strings

    A Go string is a sequence of bytes; [String.string] is a list of
    [ascii], i.e. of 8-bit values, and [String.compare] is the byte-wise
    lexicographic order Go uses for [<] on strings. *)

Module strings.

(** [strings.Join(elems, sep)]. *)
Fixpoint Join (elems : list string) (sep : string) : string :=
  match elems with
  | [] => ""
  | [x] => x
  | x :: rest => x ++ sep ++ Join rest sep
  end.

Definition is_upper (c : ascii) : bool :=
  ((65 <=? nat_of_ascii c) && (nat_of_ascii c <=? 90))%nat.

Definition lower_byte (c : ascii) : ascii :=
  if is_upper c then ascii_of_nat (nat_of_ascii c + 32) else c.

(** [strings.ToLower(s)] on the bytes of [s]: 'A'..'Z' are moved to
    'a'..'z', every other byte is kept.  This is what Go computes for a
    string of ASCII bytes, and every string the pipeline lower-cases is a
    match of [whoisRegexp], whose classes are ASCII only. *)
Fixpoint ToLower (s : string) : string :=
  match s with
  | EmptyString => EmptyString
  | String c s' => String (lower_byte c) (ToLower s')
  end.

End strings.

Module sort.

(** [sort.Strings(x)]: [x] in increasing byte order.  The order is total
    and antisymmetric, so the result does not depend on the sorting
    algorithm (see [Strings_unique] below); merge sort stands for Go's. *)
Definition Strings (x : list string) : list string :=
  merge_sort String.le x.

End sort.

(** ** Go regular expressions

    The part of Go's [regexp] syntax that [whoisRegexp] is written in, with
    the leftmost-first semantics of [regexp.FindAllString]: a match starts
    at the first position where one exists, the greedy operators prefer
    more repetitions, and the scan resumes where the match ended.  All
    classes of [whoisRegexp] are ASCII, so matching bytes and matching
    UTF-8 runes agree. *)

Module regexp.

Inductive Regexp : Type :=
| Class (p : ascii -> bool)      (* [...] *)
| Lit (c : ascii)                (* a literal byte *)
| Cat (r1 r2 : Regexp)           (* r1 r2 *)
| Opt (r : Regexp)               (* (?:r)? *)
| Star (r : Regexp)              (* (?:r)* *)
| UpTo (n : nat) (r : Regexp).   (* r{0,n} *)

(** [r+] *)
Definition Plus (r : Regexp) : Regexp := Cat r (Star r).

Definition orElse (a b : option string) : option string :=
  match a with
  | Some x => Some x
  | None => b
  end.

(** The two loops of the matcher, over the matcher [body] of the
    repeated expression and the continuation [k]. *)
Section Loops.

Variable body : string -> (string -> option string) -> option string.
Variable k : string -> option string.

(** Greedy [*]: one more iteration is preferred to stopping.  An
    iteration has to consume input, so a string of [n] bytes allows at
    most [n] of them and [fuel] is never the reason to stop. *)
Fixpoint star (fuel : nat) (s : string) {struct fuel} : option string :=
  match fuel with
  | O => k s
  | S fuel' =>
      orElse
        (body s (fun s' =>
           if (String.length s' <? String.length s)%nat
           then star fuel' s' else None))
        (k s)
  end.

(** Greedy [{0,n}]. *)
Fixpoint upTo (n : nat) (s : string) {struct n} : option string :=
  match n with
  | O => k s
  | S n' => orElse (body s (upTo n')) (k s)
  end.

End Loops.

(** [run r s k]: match [r] at the start of [s] and hand what is left of
    [s] to [k]; the alternatives are tried in the order of preference
    and the first one that [k] accepts wins. *)
Fixpoint run (r : Regexp) (s : string) (k : string -> option string)
  {struct r} : option string :=
  match r with
  | Class p =>
      match s with
      | String c s' => if p c then k s' else None
      | EmptyString => None
      end
  | Lit c0 =>
      match s with
      | String c s' => if Ascii.eqb c c0 then k s' else None
      | EmptyString => None
      end
  | Cat r1 r2 => run r1 s (fun s' => run r2 s' k)
  | Opt r' => orElse (run r' s k) (k s)
  | Star r' => star (run r') k (String.length s) s
  | UpTo n r' => upTo (run r') k n s
  end.

(** Length of the preferred match of [r] at the start of [s], if any. *)
Definition matchAt (r : Regexp) (s : string) : option nat :=
  match run r s Some with
  | Some rest => Some (String.length s - String.length rest)
  | None => None
  end.

(** The scan of [FindAllString]: [skip] bytes of the previous match are
    still to be passed over. *)
Fixpoint scan (r : Regexp) (s : string) (skip : nat) : list string :=
  match s with
  | EmptyString => []
  | String _ s' =>
      match skip with
      | S n => scan r s' n
      | O =>
          match matchAt r s with
          | Some len => substring 0 len s :: scan r s' (len - 1)
          | None => scan r s' 0
          end
      end
  end.

(** [re.FindAllString(s, -1)]. *)
Definition FindAllString (re : Regexp) (s : string) : list string :=
  scan re s 0.

End regexp.

Import regexp.

Definition in_range (lo hi c : ascii) : bool :=
  ((nat_of_ascii lo <=? nat_of_ascii c) && (nat_of_ascii c <=? nat_of_ascii hi))%nat.

(** [[a-zA-Z0-9]] *)
Definition alnum (c : ascii) : bool :=
  in_range "a" "z" c || in_range "A" "Z" c || in_range "0" "9" c.

(** [[a-zA-Z0-9-]] *)
Definition alnum_hyphen (c : ascii) : bool :=
  alnum c || Ascii.eqb c "-".

(** [[a-zA-Z0-9.!#$%&'*+/=?^_`{|}~-]] *)
Definition local_part (c : ascii) : bool :=
  alnum c || existsb (Ascii.eqb c) (list_ascii_of_string ".!#$%&'*+/=?^_`{|}~-").

(** [[a-zA-Z0-9](?:[a-zA-Z0-9-]{0,61}[a-zA-Z0-9])?] *)
Definition label : Regexp :=
  Cat (Class alnum) (Opt (Cat (UpTo 61 (Class alnum_hyphen)) (Class alnum))).

(** main.go:26 *)
Definition whoisRegexp : Regexp :=
  Cat (Plus (Class local_part))
      (Cat (Lit "@")
           (Cat label (Star (Cat (Lit ".") label)))).

(** ** Data model *)

(** Modelled from the spec: [types.EnrichInfo] (pkg/types is not part of
    the sources at hand); the fields are the ones main.go assigns, all Go
    strings. *)
Record EnrichInfo : Type := mkEnrichInfo {
  Ip : string;
  Abuse : string;
  Abuse_source : string;
  Prefix : string;
  Asn : string;
  Holder : string;
  City : string;
  Country : string
}.

(** A Go [error] value: [None] is [nil], [Some msg] an error whose
    [Error()] text is [msg]. *)
Definition error : Type := option string.

(** Modelled from the spec: the response types of pkg/ripestat, with the
    fields main.go reads. *)
Record NetworkInfo : Type := mkNetworkInfo {
  NetPrefix : string;         (* netInfo.Prefix *)
  ASNs : list string
}.

Record ASOverview : Type := mkASOverview {
  OverviewHolder : string     (* asOverview.Holder *)
}.

Record Location : Type := mkLocation {
  LocCity : string;           (* .City *)
  LocCountry : string         (* .Country *)
}.

Record LocatedResource : Type := mkLocatedResource {
  Locations : list Location
}.

Record Geolocation : Type := mkGeolocation {
  LocatedResources : list LocatedResource
}.

(** Modelled from the spec: [ripestat.Client], the primary data source.
    Each method answers with a Go pair (value, error). *)
Record Client : Type := mkClient {
  GetAbuseContacts : string -> list string * error;
  GetNetworkInfo : string -> NetworkInfo * error;
  GetASOverview : string -> ASOverview * error;
  GetGeolocationData : string -> Geolocation * error
}.

(** ** Effects

    What a run does besides computing its result: it calls collaborators
    and writes log entries.  The trace lists these in the order they
    happen. *)

Inductive Level : Type := DebugLevel | WarnLevel.

Inductive Event : Type :=
| CallGetAbuseContacts (ip : string)
| CallGetNetworkInfo (ip : string)
| CallGetASOverview (asn : string)
| CallGetGeolocationData (prefix : string)
| CallWhois (ip : string)
| LogEntry (lvl : Level) (msg : string).

Global Instance Level_eq_dec : EqDecision Level.
Proof. solve_decision. Defined.

Global Instance Event_eq_dec : EqDecision Event.
Proof. solve_decision. Defined.

(** A method of [*Enricher] reads and assigns the embedded [EnrichInfo]
    of its receiver and adds to the trace: a computation takes the
    [EnrichInfo] it finds and gives its value, the [EnrichInfo] it leaves
    and the events it caused. *)
Definition M (A : Type) : Type := EnrichInfo -> A * EnrichInfo * list Event.

Global Instance M_ret : MRet M := fun A (a : A) i => (a, i, []).

Global Instance M_bind : MBind M :=
  fun A B (f : A -> M B) (m : M A) i =>
    let '(a, i1, t1) := m i in
    let '(b, i2, t2) := f a i1 in
    (b, i2, (t1 ++ t2)%list).

Definition result {A : Type} (r : A * EnrichInfo * list Event) : A := r.1.1.
Definition receiver {A : Type} (r : A * EnrichInfo * list Event) : EnrichInfo := r.1.2.
Definition events {A : Type} (r : A * EnrichInfo * list Event) : list Event := r.2.

Definition emit (ev : Event) : M unit := fun i => (tt, i, [ev]).

(** A collaborator call: the call is recorded, the response handed back. *)
Definition call {A : Type} (ev : Event) (response : A) : M A :=
  emit ev;; mret response.

(** Read a field of [e.EnrichInfo]. *)
Definition field {A : Type} (f : EnrichInfo -> A) : M A :=
  fun i => (f i, i, []).

(** Assign to [e.EnrichInfo] or to fields of it. *)
Definition update (f : EnrichInfo -> EnrichInfo) : M unit :=
  fun i => (tt, f i, []).

Definition set_abuse (abuse source : string) (i : EnrichInfo) : EnrichInfo :=
  mkEnrichInfo (Ip i) abuse source (Prefix i) (Asn i) (Holder i) (City i) (Country i).

Definition set_network (prefix asn : string) (i : EnrichInfo) : EnrichInfo :=
  mkEnrichInfo (Ip i) (Abuse i) (Abuse_source i) prefix asn (Holder i) (City i) (Country i).

Definition set_holder (holder : string) (i : EnrichInfo) : EnrichInfo :=
  mkEnrichInfo (Ip i) (Abuse i) (Abuse_source i) (Prefix i) (Asn i) holder (City i) (Country i).

Definition set_geo (city country : string) (i : EnrichInfo) : EnrichInfo :=
  mkEnrichInfo (Ip i) (Abuse i) (Abuse_source i) (Prefix i) (Asn i) (Holder i) city country.

(** [types.EnrichInfo{Ip: ip}]: the other fields are Go's zero value. *)
Definition newEnrichInfo (ip : string) : EnrichInfo :=
  mkEnrichInfo ip "" "" "" "" "" "" "".

Module logrus.

(** [logrus.Warnf(format + "%v", err)] *)
Definition Warnf (prefix : string) (err : string) : M unit :=
  emit (LogEntry WarnLevel (prefix ++ err)).

(** [logrus.Debug(msg, arg)]: two string operands are printed without a
    separator. *)
Definition Debug (msg arg : string) : M unit :=
  emit (LogEntry DebugLevel (msg ++ arg)).

End logrus.

(** The keys of a Go [map[string]struct{}]. *)
Definition keys (m : gmap string ()) : list string := (map_to_list m).*1.

(** ** Sample collaborators, used to exercise the pipeline *)

Module Samples.

Definition noError : error := None.
Definition failed : error := Some "connection refused".

Definition emptyNet : NetworkInfo := mkNetworkInfo "" [].
Definition emptyGeo : Geolocation := mkGeolocation [].

(** The end-to-end scenario of the documentation. *)
Definition rotterdam : Client := {|
  GetAbuseContacts := fun _ => (["abuse@example.net"], noError);
  GetNetworkInfo := fun _ => (mkNetworkInfo "203.0.113.0/24" ["64500"], noError);
  GetASOverview := fun _ => (mkASOverview "EXAMPLE-NET", noError);
  GetGeolocationData := fun _ =>
    (mkGeolocation [mkLocatedResource [mkLocation "Rotterdam" "NL"]], noError)
|}.

(** Every lookup fails. *)
Definition down : Client := {|
  GetAbuseContacts := fun _ => ([], failed);
  GetNetworkInfo := fun _ => (emptyNet, failed);
  GetASOverview := fun _ => (mkASOverview "", failed);
  GetGeolocationData := fun _ => (emptyGeo, failed)
|}.

(** Every lookup succeeds and carries nothing. *)
Definition blank : Client := {|
  GetAbuseContacts := fun _ => ([], noError);
  GetNetworkInfo := fun _ => (emptyNet, noError);
  GetASOverview := fun _ => (mkASOverview "", noError);
  GetGeolocationData := fun _ => (emptyGeo, noError)
|}.

(** Every lookup succeeds and every string it carries is empty. *)
Definition hollow : Client := {|
  GetAbuseContacts := fun _ => ([""], noError);
  GetNetworkInfo := fun _ => (mkNetworkInfo "" [""], noError);
  GetASOverview := fun _ => (mkASOverview "", noError);
  GetGeolocationData := fun _ =>
    (mkGeolocation [mkLocatedResource [mkLocation "" ""]], noError)
|}.

(** Contacts in mixed case, one of them twice, not in order. *)
Definition shouting : Client := {|
  GetAbuseContacts := fun _ =>
    (["Zed@Example.NET"; "abuse@example.net"; "Zed@Example.NET"], noError);
  GetNetworkInfo := fun _ => (mkNetworkInfo "198.51.100.0/24" [], noError);
  GetASOverview := fun _ => (mkASOverview "NEVER-ASKED", noError);
  GetGeolocationData := fun _ =>
    (mkGeolocation
       [mkLocatedResource [mkLocation "Delft" "NL"; mkLocation "Gent" "BE"];
        mkLocatedResource [mkLocation "Lille" "FR"]], noError)
|}.

(** No contacts; the network answers the literal "unknown"; the first
    located resource is empty, the second is not. *)
Definition unlocated : Client := {|
  GetAbuseContacts := fun _ => ([], noError);
  GetNetworkInfo := fun _ => (mkNetworkInfo "unknown" ["unknown"], noError);
  GetASOverview := fun _ => (mkASOverview "NEVER-ASKED", noError);
  GetGeolocationData := fun _ =>
    (mkGeolocation
       [mkLocatedResource []; mkLocatedResource [mkLocation "Lille" "FR"]],
     noError)
|}.

(** Every list ends in an empty string that the pipeline never reads. *)
Definition trailing : Client := {|
  GetAbuseContacts := fun _ => (["abuse@example.net"; ""], noError);
  GetNetworkInfo := fun _ => (mkNetworkInfo "203.0.113.0/24" ["64500"; ""], noError);
  GetASOverview := fun _ => (mkASOverview "EXAMPLE-NET", noError);
  GetGeolocationData := fun _ =>
    (mkGeolocation
       [mkLocatedResource [mkLocation "Rotterdam" "NL"; mkLocation "" ""];
        mkLocatedResource [mkLocation "" ""]], noError)
|}.

Definition whoisOps (_ : string) : string * error :=
  ("contact: Ops@Example.com, also OPS@example.com", noError).

Definition whoisNone (_ : string) : string * error := ("", failed).

Definition whoisZetaAlpha (_ : string) : string * error :=
  ("remarks: zeta@x.com, alpha@x.com", noError).

Definition whoisShouted (_ : string) : string * error :=
  ("remarks: Zeta@X.COM, ALPHA@x.com", noError).

Definition whoisFooBar (_ : string) : string * error :=
  ("e-mail: Foo@Bar.com (foo@bar.com)", noError).

Definition whoisSingle (_ : string) : string * error :=
  ("OrgAbuseEmail:  Abuse@Example.ORG", noError).

(** Two iteration orders a Go map may show. *)
Definition inOrder (m : gmap string ()) : list string := keys m.
Definition reversed (m : gmap string ()) : list string := reverse (keys m).

End Samples.

(** ** The pipeline *)

Section Pipeline.

(** [e.rs], the client of the primary source. *)
Variable rs : Client.

(** [whois.Whois] of github.com/likexian/whois. *)
Variable whois_Whois : string -> string * error.

(** The order in which [for k := range m] visits the keys of [m]; Go
    leaves it unspecified. *)
Variable rangeKeys : gmap string () -> list string.

(** main.go:164-166, the case of a single match. *)
Definition singleMatch (foundMailAddresses : list string) : list string :=
  [strings.ToLower (nth 0 foundMailAddresses "")].

(** main.go:169-181, "lower and sort unique". *)
Definition lowerSortUnique (foundMailAddresses : list string) : list string :=
  let m :=
    foldl (fun (m : gmap string ()) v => <[strings.ToLower v := tt]> m)
          ∅ foundMailAddresses in
  let abusemails := foldl (fun acc k => (acc ++ [k])%list) [] (rangeKeys m) in
  sort.Strings abusemails.

Definition whoisEnrichmentIP (ipAddr : string) : M (list string) :=
  logrus.Debug "enricher: ripestat has no abuse mails for us, executing whoisEnrichment on IP address: " ipAddr;;
  '(whoisInfo, err) ← call (CallWhois ipAddr) (whois_Whois ipAddr);
  if bool_decide (err ≠ None) || bool_decide (whoisInfo = "") then
    logrus.Debug "enricher: whoisEnrichment - could not get whois info for " ipAddr;;
    mret []
  else
    let foundMailAddresses := FindAllString whoisRegexp whoisInfo in
    match length foundMailAddresses with
    | 0 =>
        logrus.Debug "enricher: whoisEnrichment - could not find any abuse emails for " ipAddr;;
        mret []
    | 1 => mret (singleMatch foundMailAddresses)
    | _ => mret (lowerSortUnique foundMailAddresses)
    end.

Definition whoisEnrichment : M (list string) :=
  ip ← field Ip;
  whoisEnrichmentIP ip.

Definition enrichAbuseFromIP (ipAddr : string) : M (string * string) :=
  let abuse := "unknown" in
  let abuseSource := "" in
  '(contacts, err) ← call (CallGetAbuseContacts ipAddr) (GetAbuseContacts rs ipAddr);
  match err with
  | Some msg =>
      logrus.Warnf "abuse contacts err: " msg;;
      mret (abuse, abuseSource)
  | None =>
      if (0 <? length contacts)%nat then
        mret (strings.Join contacts ";", "ripeSTAT")
      else
        (* Fallback to whois *)
        contacts_from_whois ← whoisEnrichment;
        if (0 <? length contacts_from_whois)%nat then
          mret (strings.Join contacts_from_whois ";", "whois")
        else
          mret (abuse, abuseSource)
  end.

Definition enrichPrefixAndASNFromIP (ipAddr : string) : M (string * string) :=
  let prefix := "unknown" in
  let asn := "unknown" in
  '(netInfo, err) ← call (CallGetNetworkInfo ipAddr) (GetNetworkInfo rs ipAddr);
  match err with
  | Some msg =>
      logrus.Warnf "network info err: " msg;;
      mret (prefix, asn)
  | None =>
      match ASNs netInfo with
      | [] => mret (NetPrefix netInfo, asn)
      | first :: _ => mret (NetPrefix netInfo, first)
      end
  end.

Definition enrichHolderFromASN (asn : string) : M string :=
  let holder := "unknown" in
  if bool_decide (asn = "unknown") then mret holder
  else
    '(asOverview, err) ← call (CallGetASOverview asn) (GetASOverview rs asn);
    match err with
    | Some msg =>
        logrus.Warnf "holder err: " msg;;
        mret holder
    | None => mret (OverviewHolder asOverview)
    end.

Definition enrichCityAndCountryFromPrefix (prefix : string) : M (string * string) :=
  let city := "unknown" in
  let country := "unknown" in
  if bool_decide (prefix = "unknown") then mret (city, country)
  else
    '(geolocation, err) ← call (CallGetGeolocationData prefix) (GetGeolocationData rs prefix);
    match err with
    | Some msg =>
        logrus.Warnf "geolocation err: " msg;;
        mret (city, country)
    | None =>
        match LocatedResources geolocation with
        | [] => mret (city, country)
        | resource :: _ =>
            match Locations resource with
            | [] => mret (city, country)
            | location :: _ => mret (LocCity location, LocCountry location)
            end
        end
    end.

Definition EnrichIP (ipAddr : string) : M EnrichInfo :=
  update (fun _ => newEnrichInfo ipAddr);;
  '(abuse, abuseSource) ← enrichAbuseFromIP ipAddr;
  update (set_abuse abuse abuseSource);;
  '(prefix, asn) ← enrichPrefixAndASNFromIP ipAddr;
  update (set_network prefix asn);;
  asn ← field Asn;
  holder ← enrichHolderFromASN asn;
  update (set_holder holder);;
  prefix ← field Prefix;
  '(city, country) ← enrichCityAndCountryFromPrefix prefix;
  update (set_geo city country);;
  field id.

Definition Enrich : M EnrichInfo :=
  ip ← field Ip;
  EnrichIP ip.

End Pipeline.

(** [NewEnricher(ip)]: the [EnrichInfo] of a fresh enricher. *)
Definition NewEnricher (ip : string) : EnrichInfo := newEnrichInfo ip.

(** How often a collaborator was called in a trace. *)
Fixpoint calls (which : Event -> bool) (t : list Event) : nat :=
  match t with
  | [] => 0
  | ev :: t' => (if which ev then 1 else 0) + calls which t'
  end.

Definition isWhois (ev : Event) : bool :=
  match ev with CallWhois _ => true | _ => false end.

Definition isAbuseContacts (ev : Event) : bool :=
  match ev with CallGetAbuseContacts _ => true | _ => false end.

Definition isNetworkInfo (ev : Event) : bool :=
  match ev with CallGetNetworkInfo _ => true | _ => false end.

Definition isLog (ev : Event) : bool :=
  match ev with LogEntry _ _ => true | _ => false end.

Definition isASOverview (ev : Event) : bool :=
  match ev with CallGetASOverview _ => true | _ => false end.

Definition isGeolocation (ev : Event) : bool :=
  match ev with CallGetGeolocationData _ => true | _ => false end.

(** ** What a run shows to the outside *)

(** The collaborator calls of a trace, in order, without the log entries. *)
Definition collaboratorCalls (t : list Event) : list Event :=
  List.filter (λ ev, negb (isLog ev)) t.

(** The warnings of a trace, in order. *)
Definition warnings (t : list Event) : list string :=
  omap (λ ev, match ev with LogEntry WarnLevel msg => Some msg | _ => None end) t.

(** ** The language of a regular expression

    [Matches r p]: the string [p], as a whole, is a match of [r].  This is
    the usual reading of the syntax, without any preference between the
    ways to match; the matcher [run] is compared with it below. *)
Inductive Matches : Regexp → string → Prop :=
| MatchClass p c : p c = true → Matches (Class p) (String c "")
| MatchLit c : Matches (Lit c) (String c "")
| MatchCat r1 r2 p1 p2 :
    Matches r1 p1 → Matches r2 p2 → Matches (Cat r1 r2) (p1 ++ p2)
| MatchOptNone r : Matches (Opt r) ""
| MatchOptSome r p : Matches r p → Matches (Opt r) p
| MatchStarDone r : Matches (Star r) ""
| MatchStarMore r p1 p2 :
    Matches r p1 → p1 ≠ "" → Matches (Star r) p2 → Matches (Star r) (p1 ++ p2)
| MatchUpToDone n r : Matches (UpTo n r) ""
| MatchUpToMore n r p1 p2 :
    Matches r p1 → Matches (UpTo n r) p2 → Matches (UpTo (S n) r) (p1 ++ p2).

(** [Woven s ms]: the strings [ms] are pieces of [s] that follow one
    another in [s] and do not overlap. *)
Inductive Woven : string → list string → Prop :=
| WovenEnd gap : Woven gap []
| WovenMatch gap m s ms : Woven s ms → Woven (gap ++ m ++ s) (m :: ms).

(** Every byte [r] can consume is in the class [q]. *)
Fixpoint within (q : ascii → bool) (r : Regexp) : Prop :=
  match r with
  | Class p => ∀ c, p c = true → q c = true
  | Lit c => q c = true
  | Cat r1 r2 => within q r1 ∧ within q r2
  | Opt r' | Star r' | UpTo _ r' => within q r'
  end.

(** Every byte of [s] is in the class [p]. *)
Fixpoint allChars (p : ascii → bool) (s : string) : bool :=
  match s with
  | EmptyString => true
  | String c s' => p c && allChars p s'
  end.

(** The bytes a domain is made of: [[a-zA-Z0-9-]] and the dot. *)
Definition domain_part (c : ascii) : bool :=
  alnum_hyphen c || Ascii.eqb c ".".

(** Any byte but the ";" that joins the addresses of the abuse field. *)
Definition notSeparator (c : ascii) : bool := negb (Ascii.eqb c ";").

(** ** The direct query of the RIPEstat data API *)

(** main.go:30 *)
Definition ripeStatSourceApp : string := "AS50559-DIVD_NL".

(** What [queryRipeStat] does to the network and to the log. *)
Inductive NetEvent : Type :=
| HttpGet (url : string)        (* the call http.Get(url) *)
| ReadBody                      (* ioutil.ReadAll(resp.Body) *)
| CloseBody                     (* resp.Body.Close() *)
| DebugEntry (msg : string).    (* logrus.Debug *)

Global Instance NetEvent_eq_dec : EqDecision NetEvent.
Proof. solve_decision. Defined.

Section QueryRipeStat.

(** [resp.Body] and the values of a decoded JSON object. *)
Variable Body : Type.
Variable Value : Type.

(** [http.Get], [ioutil.ReadAll] and [json.Unmarshal] into a
    [map[string]interface{}] that is [nil] before the call ([None] is the
    [nil] map). *)
Variable http_Get : string → Body * error.
Variable ioutil_ReadAll : Body → string * error.
Variable json_Unmarshal : string → option (gmap string Value) * error.

(** The URL of main.go:188. *)
Definition queryURL (resource query : string) : string :=
  "https://stat.ripe.net/data/" ++ resource ++ "/data.json?resource=" ++ query
    ++ "&sourceapp=" ++ ripeStatSourceApp.

(** main.go:184-214.  The deferred [Close] runs when the function
    returns, on every path after a successful [Get]. *)
Definition queryRipeStat (resource query : string)
  : (option (gmap string Value) * error) * list NetEvent :=
  if bool_decide (query = "") then
    ((None, Some ("empty query for resource " ++ resource)), [])
  else
    let url := queryURL resource query in
    let '(resp, err) := http_Get url in
    match err with
    | Some msg =>
        ((None, Some msg),
         [HttpGet url;
          DebugEntry ("enricher: queryRipeStat - could not get data from " ++ url)])
    | None =>
        let '(returned, t) :=
          let '(body, err) := ioutil_ReadAll resp in
          match err with
          | Some msg =>
              ((None, Some msg),
               [ReadBody;
                DebugEntry ("enricher: queryRipeStat - could not read response body from " ++ url)])
          | None =>
              let '(data, err) := json_Unmarshal body in
              match err with
              | Some msg =>
                  ((None, Some msg),
                   [ReadBody;
                    DebugEntry ("enricher: queryRipeStat - could not unmarshal response body from " ++ url)])
              | None =>
                  match data with
                  | None =>
                      ((data, Some ("enricher: ripestat is down " ++ url)), [ReadBody])
                  | Some _ => ((data, None), [ReadBody])
                  end
              end
          end in
        (returned, (HttpGet url :: t ++ [CloseBody])%list)
    end.

End QueryRipeStat.

(** Sample collaborators of the direct query: a body is named by a
    number, a decoded value is a number. *)
Module QuerySamples.

Definition getOk (_ : string) : nat * error := (7, None).
Definition getDown (_ : string) : nat * error := (0, Some "dial tcp: timeout").
Definition readOk (_ : nat) : string * error := ("{status: ok}", None).
Definition decodeOk (_ : string) : option (gmap string nat) * error :=
  (Some {[ "status" := 1 ]}, None).
Definition decodeNull (_ : string) : option (gmap string nat) * error :=
  (None, None).

End QuerySamples.

(** How often an event occurs in the trace of a query. *)
Definition occurrences (ev : NetEvent) (t : list NetEvent) : nat :=
  length (filter (λ x, x = ev) t).

Definition isHttpGet (ev : NetEvent) : bool :=
  match ev with HttpGet _ => true | _ => false end.

(** A computation that reads nothing of the receiver but its [Ip] and
    leaves the receiver as it found it. *)
Definition readsIp {A : Type} (m : M A) : Prop :=
  ∀ i j, Ip i = Ip j → m i = (result (m j), i, events (m j)).

(** The extraction as the documentation words it: lower-case every match,
    keep each address once, sort ascending. *)
Definition normalised (found : list string) : list string :=
  sort.Strings (remove_dups (strings.ToLower <$> found)).

(** ** Facts about the library functions *)

Section Strings.

Lemma Join_cons2 x y rest sep :
  strings.Join (x :: y :: rest) sep = x ++ sep ++ strings.Join (y :: rest) sep.
Proof. reflexivity. Qed.

Lemma append_nonempty_l s t : s ≠ "" → s ++ t ≠ "".
Proof. destruct s; [congruence | discriminate]. Qed.

Lemma Join_nonempty elems sep :
  elems ≠ [] → Forall (λ x, x ≠ "") elems → strings.Join elems sep ≠ "".
Proof.
  intros Hne Hall. destruct Hall as [|x [|y rest] Hx Hrest]; [done|done|].
  rewrite Join_cons2. by apply append_nonempty_l.
Qed.

Lemma ToLower_nonempty s : s ≠ "" → strings.ToLower s ≠ "".
Proof. destruct s; [congruence | discriminate]. Qed.

Lemma ToLower_length s : String.length (strings.ToLower s) = String.length s.
Proof. induction s as [|c s IH]; simpl; congruence. Qed.

Lemma Strings_sorted x : Sorted String.le (sort.Strings x).
Proof. apply (Sorted_merge_sort String.le). Qed.

Lemma Strings_perm x : sort.Strings x ≡ₚ x.
Proof. apply merge_sort_Permutation. Qed.

(** Whatever the algorithm, sorting has one result. *)
Lemma Strings_unique x y :
  Sorted String.le y → y ≡ₚ x → y = sort.Strings x.
Proof.
  intros Hsorted Hperm.
  apply (Sorted_unique String.le); [done | apply Strings_sorted |].
  by rewrite Strings_perm.
Qed.

End Strings.

Section Matcher.

(** The matcher looks at its continuation only through its values. *)
Lemma star_ext body k1 k2 fuel s :
  (∀ s0 c1 c2, (∀ s', c1 s' = c2 s') → body s0 c1 = body s0 c2) →
  (∀ s', k1 s' = k2 s') →
  star body k1 fuel s = star body k2 fuel s.
Proof.
  intros Hbody Hk. revert s.
  induction fuel as [|fuel IH]; intros s; simpl; [apply Hk|].
  rewrite (Hk s). f_equal. apply Hbody. intros s'.
  destruct (_ <? _)%nat; [apply IH | done].
Qed.

Lemma upTo_ext body k1 k2 n s :
  (∀ s0 c1 c2, (∀ s', c1 s' = c2 s') → body s0 c1 = body s0 c2) →
  (∀ s', k1 s' = k2 s') →
  upTo body k1 n s = upTo body k2 n s.
Proof.
  intros Hbody Hk. revert s.
  induction n as [|n IH]; intros s; simpl; [apply Hk|].
  rewrite (Hk s). f_equal. by apply Hbody.
Qed.

Lemma run_ext r : ∀ s k1 k2,
  (∀ s', k1 s' = k2 s') → run r s k1 = run r s k2.
Proof.
  induction r as [p|c0|r1 IH1 r2 IH2|r IH|r IH|n r IH]; intros s k1 k2 Hk; simpl.
  - destruct s as [|c s]; [done|]. by rewrite Hk.
  - destruct s as [|c s]; [done|]. by rewrite Hk.
  - apply IH1. intros s'. by apply IH2.
  - by rewrite (IH s k1 k2 Hk), Hk.
  - apply star_ext; [|done]. intros s0 c1 c2 Hc. by apply IH.
  - apply upTo_ext; [|done]. intros s0 c1 c2 Hc. by apply IH.
Qed.

(** A successful match hands a part of the input, never more, to its
    continuation. *)
Lemma star_shrinks body k x :
  (∀ s c, body s c = Some x →
     ∃ s', (String.length s' ≤ String.length s)%nat ∧ c s' = Some x) →
  ∀ fuel s, star body k fuel s = Some x →
    ∃ s', (String.length s' ≤ String.length s)%nat ∧ k s' = Some x.
Proof.
  intros Hbody. induction fuel as [|fuel IH]; intros s; simpl.
  { intros Hk. by exists s. }
  destruct (body s _) as [y|] eqn:Hb; simpl; [|intros Hk; by exists s].
  intros [= ->]. apply Hbody in Hb as (s1 & Hlen1 & Hs1).
  destruct (_ <? _)%nat; [|done].
  apply IH in Hs1 as (s2 & Hlen2 & Hs2). exists s2. split; [lia | done].
Qed.

Lemma upTo_shrinks body k x :
  (∀ s c, body s c = Some x →
     ∃ s', (String.length s' ≤ String.length s)%nat ∧ c s' = Some x) →
  ∀ n s, upTo body k n s = Some x →
    ∃ s', (String.length s' ≤ String.length s)%nat ∧ k s' = Some x.
Proof.
  intros Hbody. induction n as [|n IH]; intros s; simpl.
  { intros Hk. by exists s. }
  destruct (body s _) as [y|] eqn:Hb; simpl; [|intros Hk; by exists s].
  intros [= ->]. apply Hbody in Hb as (s1 & Hlen1 & Hs1).
  apply IH in Hs1 as (s2 & Hlen2 & Hs2). exists s2. split; [lia | done].
Qed.

Lemma run_shrinks r : ∀ s k x,
  run r s k = Some x →
  ∃ s', (String.length s' ≤ String.length s)%nat ∧ k s' = Some x.
Proof.
  induction r as [p|c0|r1 IH1 r2 IH2|r IH|r IH|n r IH]; intros s k x; simpl.
  - destruct s as [|c s]; [done|]. destruct (p c); [|done].
    intros Hk. exists s. simpl. split; [lia | done].
  - destruct s as [|c s]; [done|]. destruct (Ascii.eqb c c0); [|done].
    intros Hk. exists s. simpl. split; [lia | done].
  - intros (s1 & Hlen1 & Hs1)%IH1. apply IH2 in Hs1 as (s2 & Hlen2 & Hs2).
    exists s2. split; [lia | done].
  - destruct (run r s k) as [y|] eqn:Hr; simpl; [|intros Hk; by exists s].
    intros [= ->]. by apply IH in Hr.
  - apply star_shrinks. intros s0 c. apply IH.
  - apply upTo_shrinks. intros s0 c. apply IH.
Qed.

Lemma run_rejected r s k : (∀ s', k s' = None) → run r s k = None.
Proof.
  intros Hk. destruct (run r s k) as [x|] eqn:Hr; [|done].
  apply run_shrinks in Hr as (s' & _ & Hs'). by rewrite Hk in Hs'.
Qed.

(** [String.length s] iterations are enough for [Star]: more fuel does
    not change what is matched. *)
Lemma star_fuel_enough r k : ∀ fuel s,
  (String.length s ≤ fuel)%nat →
  star (run r) k fuel s = star (run r) k (String.length s) s.
Proof.
  induction fuel as [fuel IH] using lt_wf_ind. intros s Hlen.
  destruct fuel as [|fuel].
  { destruct s; [done | simpl in Hlen; lia]. }
  destruct s as [|c s]; simpl.
  - rewrite run_rejected; [done|]. intros s'. by destruct s'.
  - simpl in Hlen. f_equal. apply run_ext. intros s'.
    destruct (_ <? _)%nat eqn:Hlt; [|done].
    apply Nat.ltb_lt in Hlt.
    transitivity (star (run r) k (String.length s') s');
      [apply IH; lia | symmetry; apply IH; lia].
Qed.

(** An expression that starts with a class consumes a byte. *)
Lemma run_class_first p r1 r2 s k x :
  run (Cat (Cat (Class p) r1) r2) s k = Some x →
  ∃ s', (String.length s' < String.length s)%nat ∧ k s' = Some x.
Proof.
  change (run (Cat (Cat (Class p) r1) r2) s k)
    with (run (Class p) s (λ s1, run r1 s1 (λ s2, run r2 s2 k))).
  destruct s as [|c s]; [done|].
  simpl. destruct (p c); [|done].
  intros (s1 & Hlen1 & (s2 & Hlen2 & Hs2)%run_shrinks)%run_shrinks.
  exists s2. simpl. split; [lia | done].
Qed.

(** A match of [whoisRegexp] is never empty: its first byte is one of
    the local part. *)
Lemma whoisRegexp_consumes s len :
  matchAt whoisRegexp s = Some len → (0 < len ≤ String.length s)%nat.
Proof.
  unfold matchAt. destruct (run whoisRegexp s Some) as [rest|] eqn:Hrun; [|done].
  intros [= <-]. unfold whoisRegexp, Plus in Hrun.
  apply run_class_first in Hrun as (s' & Hlen & [= ->]). lia.
Qed.

Lemma scan_nonempty s : ∀ skip x,
  x ∈ scan whoisRegexp s skip → x ≠ "".
Proof.
  induction s as [|c s IH]; intros skip x; simpl; [by intros ?%elem_of_nil|].
  destruct skip as [|n]; [|apply IH].
  destruct (matchAt whoisRegexp (String c s)) as [len|] eqn:Hm; [|apply IH].
  intros [->|Hin]%elem_of_cons; [|by eapply IH].
  apply whoisRegexp_consumes in Hm. destruct len; [lia | done].
Qed.

(** Every address [FindAllString] reports has at least one byte. *)
Lemma FindAllString_nonempty s x :
  x ∈ FindAllString whoisRegexp s → x ≠ "".
Proof. apply scan_nonempty. Qed.

End Matcher.

(** ** The extraction *)

Section Extraction.

Variable rangeKeys : gmap string () → list string.

(** [range] visits every key once, in some order. *)
Hypothesis rangeKeys_perm : ∀ m, rangeKeys m ≡ₚ keys m.

Lemma elem_of_keys (m : gmap string ()) x : x ∈ keys m ↔ m !! x = Some ().
Proof.
  unfold keys. rewrite list_elem_of_fmap. split.
  - intros ([y []] & -> & Hin). by apply elem_of_map_to_list in Hin.
  - intros Hx. exists (x, ()). split; [done|]. by apply elem_of_map_to_list.
Qed.

Lemma collect_lookup found : ∀ (m : gmap string ()) x,
  foldl (λ (m : gmap string ()) v, <[strings.ToLower v := ()]> m) m found !! x = Some ()
  ↔ m !! x = Some () ∨ x ∈ strings.ToLower <$> found.
Proof.
  induction found as [|v found IH]; intros m x; simpl.
  - rewrite elem_of_nil. tauto.
  - rewrite IH, elem_of_cons.
    destruct (decide (strings.ToLower v = x)) as [->|Hne].
    + rewrite lookup_insert_eq. intuition auto.
    + rewrite lookup_insert_ne by done. intuition congruence.
Qed.

Lemma append_loop (l : list string) : ∀ acc,
  foldl (λ acc k, (acc ++ [k])%list) acc l = (acc ++ l)%list.
Proof.
  induction l as [|k l IH]; intros acc; simpl.
  - by rewrite app_nil_r.
  - by rewrite IH, <-app_assoc.
Qed.

Lemma Strings_proper x y : x ≡ₚ y → sort.Strings x = sort.Strings y.
Proof.
  intros Hxy. apply Strings_unique; [apply Strings_sorted|].
  by rewrite Strings_perm.
Qed.

(** The general path computes the normalised addresses, whatever order
    the map is walked in. *)
Lemma lowerSortUnique_normalised found :
  lowerSortUnique rangeKeys found = normalised found.
Proof.
  unfold lowerSortUnique, normalised. cbv zeta.
  rewrite append_loop. simpl. apply Strings_proper.
  rewrite rangeKeys_perm.
  apply NoDup_Permutation.
  - apply NoDup_fst_map_to_list.
  - apply NoDup_remove_dups.
  - intros x. rewrite elem_of_remove_dups.
    change ((map_to_list ?m).*1) with (keys m).
    rewrite elem_of_keys, collect_lookup, lookup_empty. intuition congruence.
Qed.

Lemma normalised_nil : normalised [] = [].
Proof. reflexivity. Qed.

Lemma normalised_single x : normalised [x] = [strings.ToLower x].
Proof. reflexivity. Qed.

Lemma normalised_sorted found : Sorted String.le (normalised found).
Proof. apply Strings_sorted. Qed.

Lemma normalised_NoDup found : NoDup (normalised found).
Proof.
  unfold normalised. rewrite Strings_perm. apply NoDup_remove_dups.
Qed.

Lemma elem_of_normalised found y :
  y ∈ normalised found ↔ ∃ x, y = strings.ToLower x ∧ x ∈ found.
Proof.
  unfold normalised.
  by rewrite Strings_perm, elem_of_remove_dups, list_elem_of_fmap.
Qed.

(** Ascending without repetition is strictly ascending. *)
Lemma normalised_strict found :
  StronglySorted (strict String.le) (normalised found).
Proof.
  pose proof (normalised_NoDup found) as Hnd.
  pose proof (Sorted_StronglySorted String.le _ (normalised_sorted found)) as Hs.
  induction Hs as [|x l Hl IH Hx]; [constructor|].
  apply NoDup_cons in Hnd as [Hxl Hnd].
  constructor; [by apply IH|].
  apply Forall_forall. intros y Hy. split.
  - by eapply Forall_forall in Hx.
  - intros Hyx. assert (x = y) as ->; [|done].
    apply (anti_symm String.le); [|done]. by eapply Forall_forall in Hx.
Qed.

(** The normalised addresses are the only list that is ascending, free
    of repetitions and made of the lower-cased matches. *)
Lemma normalised_unique found out :
  Sorted String.le out → NoDup out →
  (∀ y, y ∈ out ↔ ∃ x, y = strings.ToLower x ∧ x ∈ found) →
  out = normalised found.
Proof.
  intros Hsorted Hnd Hmem.
  apply (Sorted_unique String.le); [done | apply normalised_sorted |].
  apply NoDup_Permutation; [done | apply normalised_NoDup |].
  intros y. by rewrite Hmem, elem_of_normalised.
Qed.

(** It depends on the set of lower-cased matches only, not on their
    order or number. *)
Lemma normalised_set found1 found2 :
  (∀ y, y ∈ strings.ToLower <$> found1 ↔ y ∈ strings.ToLower <$> found2) →
  normalised found1 = normalised found2.
Proof.
  intros Hset. apply normalised_unique.
  - apply normalised_sorted.
  - apply normalised_NoDup.
  - intros y. rewrite elem_of_normalised, <-!list_elem_of_fmap. by rewrite Hset.
Qed.

End Extraction.

(** ** The steps of the pipeline *)

Section Steps.

Variable rs : Client.
Variable whois_Whois : string → string * error.
Variable rangeKeys : gmap string () → list string.

Lemma calls_app which t1 t2 :
  calls which (t1 ++ t2)%list = calls which t1 + calls which t2.
Proof. induction t1 as [|ev t1 IH]; simpl; [done|]. rewrite IH. lia. Qed.

(** *** whois *)

Lemma whoisEnrichmentIP_readsIp ip : readsIp (whoisEnrichmentIP whois_Whois rangeKeys ip).
Proof.
  intros i j _. unfold whoisEnrichmentIP.
  cbv [mbind M_bind mret M_ret call emit logrus.Debug result events fst snd].
  destruct (whois_Whois ip) as [whoisInfo err].
  destruct (_ || _); [done|].
  by destruct (length _) as [|[|n]].
Qed.

Lemma whoisEnrichmentIP_unavailable ip i whoisInfo err :
  whois_Whois ip = (whoisInfo, err) →
  err ≠ None ∨ whoisInfo = "" →
  result (whoisEnrichmentIP whois_Whois rangeKeys ip i) = [].
Proof.
  intros Hw Hno. unfold whoisEnrichmentIP.
  cbv [mbind M_bind mret M_ret call emit logrus.Debug result events fst snd].
  rewrite Hw.
  destruct Hno as [Herr| ->].
  - by rewrite bool_decide_eq_true_2.
  - rewrite (bool_decide_eq_true_2 ("" = "")), orb_true_r by done. done.
Qed.

Lemma whoisEnrichmentIP_found ip i whoisInfo :
  whois_Whois ip = (whoisInfo, None) → whoisInfo ≠ "" →
  result (whoisEnrichmentIP whois_Whois rangeKeys ip i) =
    let foundMailAddresses := FindAllString whoisRegexp whoisInfo in
    match length foundMailAddresses with
    | 0 => []
    | 1 => singleMatch foundMailAddresses
    | _ => lowerSortUnique rangeKeys foundMailAddresses
    end.
Proof.
  intros Hw Hne. unfold whoisEnrichmentIP.
  cbv [mbind M_bind mret M_ret call emit logrus.Debug result events fst snd].
  rewrite Hw.
  rewrite bool_decide_eq_false_2 by (by intros []).
  rewrite bool_decide_eq_false_2 by done. cbn [orb].
  by destruct (length _) as [|[|n]].
Qed.

Lemma whoisEnrichmentIP_calls ip i :
  calls isWhois (events (whoisEnrichmentIP whois_Whois rangeKeys ip i)) = 1.
Proof.
  unfold whoisEnrichmentIP.
  cbv [mbind M_bind mret M_ret call emit logrus.Debug result events fst snd].
  destruct (whois_Whois ip) as [whoisInfo err].
  destruct (_ || _); [done|].
  by destruct (length _) as [|[|n]].
Qed.

Lemma whoisEnrichment_run i :
  whoisEnrichment whois_Whois rangeKeys i =
    whoisEnrichmentIP whois_Whois rangeKeys (Ip i) i.
Proof.
  unfold whoisEnrichment. cbv [mbind M_bind field].
  by destruct (whoisEnrichmentIP _ _ _ _) as [[addresses i'] t].
Qed.

(** *** Abuse contacts *)

Lemma enrichAbuseFromIP_failed ip i contacts msg :
  GetAbuseContacts rs ip = (contacts, Some msg) →
  enrichAbuseFromIP rs whois_Whois rangeKeys ip i =
    ("unknown", "", i,
     [CallGetAbuseContacts ip; LogEntry WarnLevel ("abuse contacts err: " ++ msg)]).
Proof.
  intros Hrs. unfold enrichAbuseFromIP.
  cbv [mbind M_bind mret M_ret call emit logrus.Warnf]. by rewrite Hrs.
Qed.

Lemma enrichAbuseFromIP_primary ip i contacts :
  GetAbuseContacts rs ip = (contacts, None) → contacts ≠ [] →
  enrichAbuseFromIP rs whois_Whois rangeKeys ip i =
    (strings.Join contacts ";", "ripeSTAT", i, [CallGetAbuseContacts ip]).
Proof.
  intros Hrs Hne. unfold enrichAbuseFromIP.
  cbv [mbind M_bind mret M_ret call emit]. rewrite Hrs.
  by destruct contacts.
Qed.

Lemma enrichAbuseFromIP_fallback ip i :
  GetAbuseContacts rs ip = ([], None) →
  enrichAbuseFromIP rs whois_Whois rangeKeys ip i =
    let w := whoisEnrichmentIP whois_Whois rangeKeys (Ip i) i in
    (if (0 <? length (result w))%nat
     then (strings.Join (result w) ";", "whois") else ("unknown", ""),
     i, CallGetAbuseContacts ip :: events w).
Proof.
  intros Hrs. unfold enrichAbuseFromIP.
  cbv [mbind M_bind mret M_ret call emit]. rewrite Hrs. cbn [length Nat.ltb Nat.leb].
  rewrite whoisEnrichment_run.
  rewrite (whoisEnrichmentIP_readsIp (Ip i) i i eq_refl). cbv [result events fst snd].
  destruct (whoisEnrichmentIP _ _ _ _) as [[addresses i'] t]. cbn [fst snd].
  destruct (length addresses); cbn; by rewrite app_nil_r.
Qed.

Lemma enrichAbuseFromIP_readsIp ip :
  readsIp (enrichAbuseFromIP rs whois_Whois rangeKeys ip).
Proof.
  intros i j Hij.
  destruct (GetAbuseContacts rs ip) as [contacts [msg|]] eqn:Hrs.
  { by rewrite !(enrichAbuseFromIP_failed _ _ _ _ Hrs). }
  destruct contacts as [|c contacts].
  - rewrite !(enrichAbuseFromIP_fallback _ _ Hrs). cbv zeta. rewrite Hij.
    by rewrite (whoisEnrichmentIP_readsIp (Ip j) i j Hij).
  - by rewrite !(enrichAbuseFromIP_primary _ _ _ Hrs).
Qed.

(** *** Network information *)

Lemma enrichPrefixAndASNFromIP_failed ip i netInfo msg :
  GetNetworkInfo rs ip = (netInfo, Some msg) →
  enrichPrefixAndASNFromIP rs ip i =
    ("unknown", "unknown", i,
     [CallGetNetworkInfo ip; LogEntry WarnLevel ("network info err: " ++ msg)]).
Proof.
  intros Hrs. unfold enrichPrefixAndASNFromIP.
  cbv [mbind M_bind mret M_ret call emit logrus.Warnf]. by rewrite Hrs.
Qed.

Lemma enrichPrefixAndASNFromIP_answered ip i netInfo :
  GetNetworkInfo rs ip = (netInfo, None) →
  enrichPrefixAndASNFromIP rs ip i =
    (NetPrefix netInfo, default "unknown" (head (ASNs netInfo)), i,
     [CallGetNetworkInfo ip]).
Proof.
  intros Hrs. unfold enrichPrefixAndASNFromIP.
  cbv [mbind M_bind mret M_ret call emit]. rewrite Hrs.
  by destruct (ASNs netInfo).
Qed.

Lemma enrichPrefixAndASNFromIP_readsIp ip :
  readsIp (enrichPrefixAndASNFromIP rs ip).
Proof.
  intros i j _.
  destruct (GetNetworkInfo rs ip) as [netInfo [msg|]] eqn:Hrs.
  - by rewrite !(enrichPrefixAndASNFromIP_failed _ _ _ _ Hrs).
  - by rewrite !(enrichPrefixAndASNFromIP_answered _ _ _ Hrs).
Qed.

(** *** Holder *)

Lemma enrichHolderFromASN_unknown i :
  enrichHolderFromASN rs "unknown" i = ("unknown", i, []).
Proof. reflexivity. Qed.

Lemma enrichHolderFromASN_queried asn i :
  asn ≠ "unknown" →
  enrichHolderFromASN rs asn i =
    match GetASOverview rs asn with
    | (_, Some msg) =>
        ("unknown", i,
         [CallGetASOverview asn; LogEntry WarnLevel ("holder err: " ++ msg)])
    | (asOverview, None) =>
        (OverviewHolder asOverview, i, [CallGetASOverview asn])
    end.
Proof.
  intros Hasn. unfold enrichHolderFromASN.
  rewrite bool_decide_eq_false_2 by done.
  cbv [mbind M_bind mret M_ret call emit logrus.Warnf].
  by destruct (GetASOverview rs asn) as [asOverview [msg|]].
Qed.

Lemma enrichHolderFromASN_readsIp asn : readsIp (enrichHolderFromASN rs asn).
Proof.
  intros i j _. destruct (decide (asn = "unknown")) as [->|Hasn]; [done|].
  rewrite !(enrichHolderFromASN_queried _ _ Hasn).
  by destruct (GetASOverview rs asn) as [asOverview [msg|]].
Qed.

(** *** Geolocation *)

Lemma enrichCityAndCountryFromPrefix_unknown i :
  enrichCityAndCountryFromPrefix rs "unknown" i = ("unknown", "unknown", i, []).
Proof. reflexivity. Qed.

Lemma enrichCityAndCountryFromPrefix_queried prefix i :
  prefix ≠ "unknown" →
  enrichCityAndCountryFromPrefix rs prefix i =
    match GetGeolocationData rs prefix with
    | (_, Some msg) =>
        ("unknown", "unknown", i,
         [CallGetGeolocationData prefix;
          LogEntry WarnLevel ("geolocation err: " ++ msg)])
    | (geolocation, None) =>
        (match LocatedResources geolocation with
         | [] => ("unknown", "unknown")
         | resource :: _ =>
             match Locations resource with
             | [] => ("unknown", "unknown")
             | location :: _ => (LocCity location, LocCountry location)
             end
         end, i, [CallGetGeolocationData prefix])
    end.
Proof.
  intros Hprefix. unfold enrichCityAndCountryFromPrefix.
  rewrite bool_decide_eq_false_2 by done.
  cbv [mbind M_bind mret M_ret call emit logrus.Warnf].
  destruct (GetGeolocationData rs prefix) as [geolocation [msg|]]; [done|].
  destruct (LocatedResources geolocation) as [|resource ?]; [done|].
  by destruct (Locations resource).
Qed.

Lemma enrichCityAndCountryFromPrefix_readsIp prefix :
  readsIp (enrichCityAndCountryFromPrefix rs prefix).
Proof.
  intros i j _. destruct (decide (prefix = "unknown")) as [->|Hprefix]; [done|].
  rewrite !(enrichCityAndCountryFromPrefix_queried _ _ Hprefix).
  by destruct (GetGeolocationData rs prefix) as [geolocation [msg|]].
Qed.

(** *** The whole run *)

(** [EnrichIP] starts from a fresh [EnrichInfo], so what it returns is
    made of the four steps and of nothing the receiver held before. *)
Lemma EnrichIP_run ipAddr i :
  let fresh := newEnrichInfo ipAddr in
  let a := enrichAbuseFromIP rs whois_Whois rangeKeys ipAddr fresh in
  let n := enrichPrefixAndASNFromIP rs ipAddr fresh in
  let h := enrichHolderFromASN rs (result n).2 fresh in
  let g := enrichCityAndCountryFromPrefix rs (result n).1 fresh in
  let r := mkEnrichInfo ipAddr (result a).1 (result a).2 (result n).1 (result n).2
                        (result h) (result g).1 (result g).2 in
  EnrichIP rs whois_Whois rangeKeys ipAddr i =
    (r, r, (events a ++ events n ++ events h ++ events g)%list).
Proof.
  cbv zeta. unfold EnrichIP. cbv [mbind M_bind update field].
  rewrite (enrichAbuseFromIP_readsIp ipAddr _ (newEnrichInfo ipAddr)) by reflexivity.
  destruct (result (enrichAbuseFromIP _ _ _ _ _)) as [abuse abuseSource].
  rewrite (enrichPrefixAndASNFromIP_readsIp ipAddr _ (newEnrichInfo ipAddr)) by reflexivity.
  destruct (result (enrichPrefixAndASNFromIP _ _ _)) as [prefix asn].
  cbn [fst snd Asn Prefix set_network].
  rewrite (enrichHolderFromASN_readsIp asn _ (newEnrichInfo ipAddr)) by reflexivity.
  rewrite (enrichCityAndCountryFromPrefix_readsIp prefix _ (newEnrichInfo ipAddr)) by reflexivity.
  destruct (result (enrichCityAndCountryFromPrefix _ _ _)) as [city country].
  cbn. by rewrite app_nil_r.
Qed.

End Steps.

(** ** What each step may call *)

Section Events.

Variable rs : Client.
Variable whois_Whois : string → string * error.
Variable rangeKeys : gmap string () → list string.

Lemma calls_none which t :
  Forall (λ ev, which ev = false) t → calls which t = 0.
Proof. induction 1 as [|ev t Hev _ IH]; simpl; [done|]. by rewrite Hev, IH. Qed.

Lemma whoisEnrichmentIP_events ip i :
  Forall (λ ev, isWhois ev || isLog ev = true)
         (events (whoisEnrichmentIP whois_Whois rangeKeys ip i)).
Proof.
  unfold whoisEnrichmentIP.
  cbv [mbind M_bind mret M_ret call emit logrus.Debug result events fst snd].
  destruct (whois_Whois ip) as [whoisInfo err].
  destruct (_ || _); [by repeat constructor|].
  destruct (length _) as [|[|n]]; by repeat constructor.
Qed.

Lemma enrichAbuseFromIP_events ip i :
  Forall (λ ev, isAbuseContacts ev || isWhois ev || isLog ev = true)
         (events (enrichAbuseFromIP rs whois_Whois rangeKeys ip i)).
Proof.
  destruct (GetAbuseContacts rs ip) as [contacts [msg|]] eqn:Hrs.
  { rewrite (enrichAbuseFromIP_failed _ _ _ _ _ _ _ Hrs). by repeat constructor. }
  destruct contacts as [|c contacts].
  - rewrite (enrichAbuseFromIP_fallback _ _ _ _ _ Hrs). constructor; [done|].
    eapply Forall_impl; [apply whoisEnrichmentIP_events|]. by intros [].
  - rewrite (enrichAbuseFromIP_primary _ _ _ _ _ _ Hrs) by done.
    by repeat constructor.
Qed.

Lemma enrichPrefixAndASNFromIP_events ip i :
  Forall (λ ev, isNetworkInfo ev || isLog ev = true)
         (events (enrichPrefixAndASNFromIP rs ip i)).
Proof.
  destruct (GetNetworkInfo rs ip) as [netInfo [msg|]] eqn:Hrs.
  - rewrite (enrichPrefixAndASNFromIP_failed _ _ _ _ _ Hrs). by repeat constructor.
  - rewrite (enrichPrefixAndASNFromIP_answered _ _ _ _ Hrs). by repeat constructor.
Qed.

Lemma enrichHolderFromASN_events asn i :
  Forall (λ ev, isASOverview ev || isLog ev = true)
         (events (enrichHolderFromASN rs asn i)).
Proof.
  destruct (decide (asn = "unknown")) as [->|Hasn]; [constructor|].
  rewrite (enrichHolderFromASN_queried _ _ _ Hasn).
  destruct (GetASOverview rs asn) as [asOverview [msg|]]; by repeat constructor.
Qed.

Lemma enrichCityAndCountryFromPrefix_events prefix i :
  Forall (λ ev, isGeolocation ev || isLog ev = true)
         (events (enrichCityAndCountryFromPrefix rs prefix i)).
Proof.
  destruct (decide (prefix = "unknown")) as [->|Hprefix]; [constructor|].
  rewrite (enrichCityAndCountryFromPrefix_queried _ _ _ Hprefix).
  destruct (GetGeolocationData rs prefix) as [geolocation [msg|]];
    by repeat constructor.
Qed.

(** A step calls no collaborator but its own. *)
Lemma calls_other which kinds t :
  Forall (λ ev, kinds ev = true) t →
  (∀ ev, kinds ev = true → which ev = false) →
  calls which t = 0.
Proof.
  intros Ht Hother. apply calls_none. eapply Forall_impl; [exact Ht|]. done.
Qed.

End Events.

Ltac other_step :=
  eapply calls_other;
  [ first [ apply enrichAbuseFromIP_events
          | apply enrichPrefixAndASNFromIP_events
          | apply enrichHolderFromASN_events
          | apply enrichCityAndCountryFromPrefix_events ]
  | by intros [] ].

(** ** The extraction inside the pipeline *)

Section WhoisResult.

Variable whois_Whois : string → string * error.
Variable rangeKeys : gmap string () → list string.
Hypothesis rangeKeys_perm : ∀ m, rangeKeys m ≡ₚ keys m.

Lemma length_one (found : list string) :
  length found = 1 → found = [nth 0 found ""].
Proof. by destruct found as [|x [|y found]]. Qed.

(** On a single match the general path and the short one agree. *)
Lemma lowerSortUnique_single found :
  length found = 1 → lowerSortUnique rangeKeys found = singleMatch found.
Proof.
  intros Hlen. rewrite lowerSortUnique_normalised by done.
  rewrite (length_one found Hlen) at 1. apply normalised_single.
Qed.

(** Whatever the number of matches, the addresses are the normalised
    matches of the text. *)
Lemma whoisEnrichmentIP_normalised ip i whoisInfo :
  whois_Whois ip = (whoisInfo, None) →
  result (whoisEnrichmentIP whois_Whois rangeKeys ip i) =
    normalised (FindAllString whoisRegexp whoisInfo).
Proof.
  intros Hw. destruct (decide (whoisInfo = "")) as [->|Hne].
  { rewrite (whoisEnrichmentIP_unavailable _ _ _ _ _ _ Hw); auto. }
  rewrite (whoisEnrichmentIP_found _ _ _ _ _ Hw Hne). cbv zeta.
  destruct (length _) as [|[|n]] eqn:Hlen.
  - apply length_zero_iff_nil in Hlen. by rewrite Hlen.
  - by rewrite <-lowerSortUnique_single, lowerSortUnique_normalised.
  - by apply lowerSortUnique_normalised.
Qed.

Lemma whoisEnrichmentIP_nonempty ip i :
  Forall (λ a, a ≠ "") (result (whoisEnrichmentIP whois_Whois rangeKeys ip i)).
Proof.
  destruct (whois_Whois ip) as [whoisInfo [msg|]] eqn:Hw.
  { rewrite (whoisEnrichmentIP_unavailable _ _ _ _ _ _ Hw); auto. }
  rewrite (whoisEnrichmentIP_normalised _ _ _ Hw).
  apply Forall_forall. intros y (x & -> & Hx)%elem_of_normalised.
  by apply ToLower_nonempty, (FindAllString_nonempty whoisInfo).
Qed.

End WhoisResult.

Lemma result_mk {A : Type} (a : A) i t : result (a, i, t) = a.
Proof. reflexivity. Qed.

Lemma events_mk {A : Type} (a : A) i t : events (a, i, t) = t.
Proof. reflexivity. Qed.

(** The steps that cannot make the calls counted by [which] count for
    nothing. *)
Ltac silence which :=
  rewrite ?calls_app;
  repeat match goal with
  | |- context [calls which (events ?x)] =>
      replace (calls which (events x)) with 0 by (symmetry; other_step)
  end.

(** ** Properties of the pipeline *)

(** C5. When the primary source answers the abuse-contact lookup with at
    least one contact, the record carries these contacts joined by ";",
    exactly as they came (same case, same order, repetitions kept), its
    source tag is "ripeSTAT", and whois is not called at all. *)
Theorem primary_contacts_win rs whois_Whois rangeKeys ipAddr i contacts :
  GetAbuseContacts rs ipAddr = (contacts, None) →
  contacts ≠ [] →
  let run := EnrichIP rs whois_Whois rangeKeys ipAddr i in
  Abuse (result run) = strings.Join contacts ";" ∧
  Abuse_source (result run) = "ripeSTAT" ∧
  calls isWhois (events run) = 0.
Proof.
  intros Hrs Hne run. subst run. rewrite EnrichIP_run. cbv zeta.
  rewrite (enrichAbuseFromIP_primary _ _ _ _ _ _ Hrs Hne).
  cbn [result events fst snd Abuse Abuse_source].
  split_and!; [done | done |].
  by silence isWhois.
Qed.

Lemma primary_contacts_win_witness :
  let run := EnrichIP Samples.shouting Samples.whoisOps Samples.reversed
                      "198.51.100.7" (NewEnricher "198.51.100.7") in
  Abuse (result run) = "Zed@Example.NET;abuse@example.net;Zed@Example.NET" ∧
  Abuse_source (result run) = "ripeSTAT" ∧
  calls isWhois (events run) = 0.
Proof.
  apply (primary_contacts_win Samples.shouting Samples.whoisOps Samples.reversed
           "198.51.100.7" (NewEnricher "198.51.100.7")
           ["Zed@Example.NET"; "abuse@example.net"; "Zed@Example.NET"]).
  - reflexivity.
  - discriminate.
Defined.

(** C6, as amended.  If the network-info lookup fails, prefix and asn are
    both "unknown".  If it succeeds, prefix is the prefix string of the
    response as it is (the empty string when the response has none); asn is
    "unknown" when the response lists no ASN and the first ASN listed
    otherwise. *)
Theorem network_resolution rs whois_Whois rangeKeys ipAddr i netInfo err :
  GetNetworkInfo rs ipAddr = (netInfo, err) →
  let r := result (EnrichIP rs whois_Whois rangeKeys ipAddr i) in
  (err ≠ None → Prefix r = "unknown" ∧ Asn r = "unknown") ∧
  (err = None → Prefix r = NetPrefix netInfo) ∧
  (err = None → ASNs netInfo = [] → Asn r = "unknown") ∧
  (err = None → ∀ first others, ASNs netInfo = first :: others → Asn r = first).
Proof.
  intros Hrs r. subst r. rewrite EnrichIP_run. cbv zeta.
  cbn [result fst snd Prefix Asn].
  destruct err as [msg|].
  - rewrite (enrichPrefixAndASNFromIP_failed _ _ _ _ _ Hrs). by split_and!.
  - rewrite (enrichPrefixAndASNFromIP_answered _ _ _ _ Hrs). cbn [fst snd].
    split_and!; [done | done | by intros _ -> | by intros _ first others ->].
Qed.

Lemma network_resolution_witness :
  let r := result (EnrichIP Samples.rotterdam Samples.whoisNone Samples.inOrder
                            "203.0.113.5" (NewEnricher "203.0.113.5")) in
  Prefix r = "203.0.113.0/24" ∧ Asn r = "64500".
Proof.
  destruct (network_resolution Samples.rotterdam Samples.whoisNone Samples.inOrder
              "203.0.113.5" (NewEnricher "203.0.113.5")
              (mkNetworkInfo "203.0.113.0/24" ["64500"]) None eq_refl)
    as (_ & Hprefix & _ & Hasn).
  split.
  - exact (Hprefix eq_refl).
  - exact (Hasn eq_refl "64500" [] eq_refl).
Defined.

(** C6 as stated fails: the lookup succeeds, the response has no ASN and
    no prefix, and the record's prefix is the empty string, not
    "unknown". *)
Lemma absent_prefix_counterexample :
  let answer := GetNetworkInfo Samples.blank "203.0.113.5" in
  let r := result (EnrichIP Samples.blank Samples.whoisNone Samples.inOrder
                            "203.0.113.5" (NewEnricher "203.0.113.5")) in
  answer.2 = None ∧ ASNs answer.1 = [] ∧ NetPrefix answer.1 = "" ∧
  Asn r = "unknown" ∧ Prefix r = "" ∧ Prefix r ≠ "unknown".
Proof. vm_compute. by split_and!. Qed.

(** C7. When network resolution leaves asn = "unknown", the AS overview
    is not queried and the holder is "unknown"; the run is then the same
    whatever the AS-overview collaborator would have answered. *)
Theorem unknown_asn_skips_overview rs whois_Whois rangeKeys ipAddr i :
  let run := EnrichIP rs whois_Whois rangeKeys ipAddr i in
  Asn (result run) = "unknown" →
  Holder (result run) = "unknown" ∧
  calls isASOverview (events run) = 0 ∧
  ∀ overview,
    EnrichIP (mkClient (GetAbuseContacts rs) (GetNetworkInfo rs) overview
                       (GetGeolocationData rs))
             whois_Whois rangeKeys ipAddr i = run.
Proof.
  intros run. subst run. rewrite EnrichIP_run. cbv zeta.
  cbn [result events fst snd Asn Holder]. intros Hasn.
  split_and!.
  - by rewrite Hasn.
  - rewrite Hasn, enrichHolderFromASN_unknown. by silence isASOverview.
  - intros overview. rewrite EnrichIP_run. cbv zeta.
    change (enrichPrefixAndASNFromIP (mkClient _ _ _ _) ipAddr)
      with (enrichPrefixAndASNFromIP rs ipAddr).
    change (enrichAbuseFromIP (mkClient _ _ _ _)) with (enrichAbuseFromIP rs).
    cbn [result fst snd]. rewrite Hasn. reflexivity.
Qed.

Lemma unknown_asn_skips_overview_witness :
  let run := EnrichIP Samples.shouting Samples.whoisOps Samples.inOrder
                      "198.51.100.7" (NewEnricher "198.51.100.7") in
  Holder (result run) = "unknown" ∧ calls isASOverview (events run) = 0.
Proof.
  destruct (unknown_asn_skips_overview Samples.shouting Samples.whoisOps
              Samples.inOrder "198.51.100.7" (NewEnricher "198.51.100.7") eq_refl)
    as (Hholder & Hcalls & _).
  by split.
Defined.

(** C8. When network resolution leaves prefix = "unknown", geolocation is
    not queried and city and country are both "unknown". *)
Theorem unknown_prefix_skips_geolocation rs whois_Whois rangeKeys ipAddr i :
  let run := EnrichIP rs whois_Whois rangeKeys ipAddr i in
  Prefix (result run) = "unknown" →
  City (result run) = "unknown" ∧
  Country (result run) = "unknown" ∧
  calls isGeolocation (events run) = 0.
Proof.
  intros run. subst run. rewrite EnrichIP_run. cbv zeta.
  cbn [result events fst snd Prefix City Country]. intros Hprefix.
  rewrite Hprefix, enrichCityAndCountryFromPrefix_unknown. cbn [fst snd].
  split_and!; [done | done |].
  by silence isGeolocation.
Qed.

Lemma unknown_prefix_skips_geolocation_witness :
  let run := EnrichIP Samples.down Samples.whoisOps Samples.inOrder
                      "203.0.113.5" (NewEnricher "203.0.113.5") in
  City (result run) = "unknown" ∧
  Country (result run) = "unknown" ∧
  calls isGeolocation (events run) = 0.
Proof.
  exact (unknown_prefix_skips_geolocation Samples.down Samples.whoisOps
           Samples.inOrder "203.0.113.5" (NewEnricher "203.0.113.5") eq_refl).
Defined.

(** C9. For a prefix that is looked up (any prefix but "unknown"), city
    and country are both "unknown" if the lookup fails, if the response
    has no located resource, or if its first located resource has no
    location; otherwise they are those of the first location of the first
    located resource, whatever the other resources and locations are.  The
    lookup is made once. *)
Theorem first_location_wins rs prefix i geolocation err :
  prefix ≠ "unknown" →
  GetGeolocationData rs prefix = (geolocation, err) →
  let run := enrichCityAndCountryFromPrefix rs prefix i in
  calls isGeolocation (events run) = 1 ∧
  (err ≠ None → result run = ("unknown", "unknown")) ∧
  (err = None → LocatedResources geolocation = [] →
     result run = ("unknown", "unknown")) ∧
  (err = None → ∀ first others,
     LocatedResources geolocation = first :: others → Locations first = [] →
     result run = ("unknown", "unknown")) ∧
  (err = None → ∀ first others location more,
     LocatedResources geolocation = first :: others →
     Locations first = location :: more →
     result run = (LocCity location, LocCountry location)).
Proof.
  intros Hprefix Hrs run. subst run.
  rewrite (enrichCityAndCountryFromPrefix_queried _ _ _ Hprefix), Hrs.
  destruct err as [msg|]; cbn [result events fst snd].
  { by split_and!. }
  split_and!; [done | done | by intros _ -> | |].
  - by intros _ first others -> ->.
  - by intros _ first others location more -> ->.
Qed.

Lemma first_location_wins_witness :
  result (enrichCityAndCountryFromPrefix Samples.shouting "198.51.100.0/24"
            (NewEnricher "198.51.100.7")) = ("Delft", "NL") ∧
  result (enrichCityAndCountryFromPrefix Samples.unlocated "192.0.2.0/24"
            (NewEnricher "192.0.2.1")) = ("unknown", "unknown").
Proof.
  split.
  - destruct (first_location_wins Samples.shouting "198.51.100.0/24"
                (NewEnricher "198.51.100.7")
                (mkGeolocation
                   [mkLocatedResource [mkLocation "Delft" "NL"; mkLocation "Gent" "BE"];
                    mkLocatedResource [mkLocation "Lille" "FR"]])
                None ltac:(discriminate) eq_refl)
      as (_ & _ & _ & _ & Hfirst).
    exact (Hfirst eq_refl _ _ _ _ eq_refl eq_refl).
  - destruct (first_location_wins Samples.unlocated "192.0.2.0/24"
                (NewEnricher "192.0.2.1")
                (mkGeolocation
                   [mkLocatedResource []; mkLocatedResource [mkLocation "Lille" "FR"]])
                None ltac:(discriminate) eq_refl)
      as (_ & _ & _ & Hempty & _).
    exact (Hempty eq_refl _ _ eq_refl eq_refl).
Defined.

(** C1, as amended.  When the primary abuse-contact lookup succeeds with
    no contact and the whois extraction yields at least one address, the
    record has source tag "whois" and the extracted addresses joined by
    ";".  When the lookup fails, the failure is logged, whois is not
    called, and the record has abuse "unknown" and an empty source tag. *)
Theorem whois_fallback rs whois_Whois rangeKeys ipAddr i contacts err :
  GetAbuseContacts rs ipAddr = (contacts, err) →
  let run := EnrichIP rs whois_Whois rangeKeys ipAddr i in
  let extracted :=
    result (whoisEnrichmentIP whois_Whois rangeKeys ipAddr (newEnrichInfo ipAddr)) in
  (err = None → contacts = [] → extracted ≠ [] →
     Abuse_source (result run) = "whois" ∧
     Abuse (result run) = strings.Join extracted ";" ∧
     calls isWhois (events run) = 1) ∧
  (∀ msg, err = Some msg →
     Abuse (result run) = "unknown" ∧
     Abuse_source (result run) = "" ∧
     LogEntry WarnLevel ("abuse contacts err: " ++ msg) ∈ events run ∧
     calls isWhois (events run) = 0).
Proof.
  intros Hrs run extracted. subst run extracted. rewrite EnrichIP_run. cbv zeta.
  cbn [result events fst snd Abuse Abuse_source].
  split.
  - intros -> -> Hne. rewrite (enrichAbuseFromIP_fallback _ _ _ _ _ Hrs). cbv zeta.
    rewrite result_mk, events_mk. cbn [Ip newEnrichInfo].
    set (w := whoisEnrichmentIP _ _ _ _) in *.
    destruct (result w) as [|a addresses] eqn:Hw; [done|].
    split_and!; [done | done |].
    subst w. silence isWhois. cbn [calls isWhois].
    by rewrite whoisEnrichmentIP_calls.
  - intros msg ->. rewrite (enrichAbuseFromIP_failed _ _ _ _ _ _ _ Hrs).
    cbn [fst snd]. split_and!; [done | done | |].
    + apply elem_of_app. left. apply elem_of_cons. right. apply elem_of_cons. by left.
    + by silence isWhois.
Qed.

Lemma whois_fallback_witness :
  let run := EnrichIP Samples.blank Samples.whoisOps Samples.reversed
                      "203.0.113.5" (NewEnricher "203.0.113.5") in
  Abuse_source (result run) = "whois" ∧
  Abuse (result run) = "ops@example.com" ∧
  calls isWhois (events run) = 1.
Proof.
  destruct (whois_fallback Samples.blank Samples.whoisOps Samples.reversed
              "203.0.113.5" (NewEnricher "203.0.113.5") [] None eq_refl)
    as [Hfallback _].
  apply Hfallback; [reflexivity | reflexivity | vm_compute; discriminate].
Defined.

(** C1 as stated fails: the primary lookup fails, the whois text holds an
    address, and yet the record says "unknown" with an empty source tag;
    whois was not even called. *)
Lemma failed_lookup_counterexample :
  let rs := Samples.down in
  let run := EnrichIP rs Samples.whoisOps Samples.inOrder
                      "203.0.113.5" (NewEnricher "203.0.113.5") in
  let extracted :=
    result (whoisEnrichmentIP Samples.whoisOps Samples.inOrder "203.0.113.5"
              (NewEnricher "203.0.113.5")) in
  (GetAbuseContacts rs "203.0.113.5").2 ≠ None ∧
  extracted = ["ops@example.com"] ∧
  Abuse (result run) = "unknown" ∧
  Abuse_source (result run) = "" ∧
  calls isWhois (events run) = 0 ∧
  ¬ (Abuse_source (result run) = "whois" ∧
     Abuse (result run) = strings.Join extracted ";").
Proof. vm_compute. split_and!; try done. by intros [? ?]. Qed.

(** An element of a list without repetitions occurs in it once. *)
Lemma occurs_once (l : list string) a :
  NoDup l → a ∈ l → length (filter (λ y, y = a) l) = 1.
Proof.
  induction 1 as [|y l Hy Hnd IH]; [by intros ?%elem_of_nil|].
  intros Hin. destruct (decide (y = a)) as [->|Hne].
  - rewrite filter_cons_True by done. simpl. f_equal.
    destruct (filter _ l) as [|z k] eqn:Hf; [done|].
    assert (z ∈ filter (λ y, y = a) l) as [-> Hz]%list_elem_of_filter
      by (rewrite Hf; left).
    done.
  - rewrite filter_cons_False by done. apply IH.
    apply elem_of_cons in Hin as [?|?]; [congruence | done].
Qed.

(** No byte of a lower-cased string is one of 'A'..'Z'. *)
Lemma lower_byte_no_upper c : strings.is_upper (strings.lower_byte c) = false.
Proof. by destruct c as [[] [] [] [] [] [] [] []]. Qed.

Lemma ToLower_no_upper s :
  allChars (λ c, negb (strings.is_upper c)) (strings.ToLower s) = true.
Proof.
  induction s as [|c s IH]; [done|]. simpl. by rewrite lower_byte_no_upper, IH.
Qed.

Lemma normalised_no_upper found :
  Forall (λ y, allChars (λ c, negb (strings.is_upper c)) y = true)
         (normalised found).
Proof.
  apply Forall_forall. intros y (x & -> & _)%elem_of_normalised.
  apply ToLower_no_upper.
Qed.

(** C3. The addresses extracted from a whois text are the lower-cased
    matches of the text in ascending byte order, each once.  They are the
    same for every order in which the map of the deduplication is walked,
    and the same for every text whose matches are these in another order;
    matches zeta@x.com and alpha@x.com, in either order, give
    alpha@x.com, zeta@x.com.  No byte of an address is an upper-case
    letter. *)
Theorem extraction_sorted whois_Whois rangeKeys ip i text :
  (∀ m, rangeKeys m ≡ₚ keys m) →
  whois_Whois ip = (text, None) →
  let found := FindAllString whoisRegexp text in
  let out := result (whoisEnrichmentIP whois_Whois rangeKeys ip i) in
  Sorted String.le out ∧
  StronglySorted (strict String.le) out ∧
  (∀ y, y ∈ out ↔ y ∈ strings.ToLower <$> found) ∧
  out = normalised found ∧
  (∀ rangeKeys', (∀ m, rangeKeys' m ≡ₚ keys m) →
     result (whoisEnrichmentIP whois_Whois rangeKeys' ip i) = out) ∧
  (∀ ip' i' text', whois_Whois ip' = (text', None) →
     FindAllString whoisRegexp text' ≡ₚ found →
     result (whoisEnrichmentIP whois_Whois rangeKeys ip' i') = out) ∧
  (found ≡ₚ ["zeta@x.com"; "alpha@x.com"] → out = ["alpha@x.com"; "zeta@x.com"]) ∧
  Forall (λ y, allChars (λ c, negb (strings.is_upper c)) y = true) out.
Proof.
  intros Hperm Hw found out. subst out.
  rewrite (whoisEnrichmentIP_normalised _ _ Hperm _ _ _ Hw). fold found.
  split_and!; [..|apply normalised_no_upper].
  - apply normalised_sorted.
  - apply normalised_strict.
  - intros y. by rewrite elem_of_normalised, list_elem_of_fmap.
  - done.
  - intros rangeKeys' Hperm'. by apply whoisEnrichmentIP_normalised.
  - intros ip' i' text' Hw' Hfound.
    rewrite (whoisEnrichmentIP_normalised _ _ Hperm _ _ _ Hw').
    apply normalised_set. intros y. by rewrite Hfound.
  - intros Hfound.
    rewrite (normalised_set found ["zeta@x.com"; "alpha@x.com"]); [done|].
    intros y. by rewrite Hfound.
Qed.

Lemma reversed_perm m : Samples.reversed m ≡ₚ keys m.
Proof. apply reverse_Permutation. Qed.

Lemma extraction_sorted_witness :
  result (whoisEnrichmentIP Samples.whoisZetaAlpha Samples.reversed "192.0.2.1"
            (NewEnricher "192.0.2.1")) = ["alpha@x.com"; "zeta@x.com"] ∧
  result (whoisEnrichmentIP Samples.whoisShouted Samples.inOrder "192.0.2.1"
            (NewEnricher "192.0.2.1")) = ["alpha@x.com"; "zeta@x.com"].
Proof.
  split.
  - destruct (extraction_sorted Samples.whoisZetaAlpha Samples.reversed "192.0.2.1"
                (NewEnricher "192.0.2.1") "remarks: zeta@x.com, alpha@x.com"
                reversed_perm eq_refl)
      as (_ & _ & _ & _ & _ & _ & Hexample & _).
    apply Hexample. reflexivity.
  - destruct (extraction_sorted Samples.whoisShouted Samples.inOrder "192.0.2.1"
                (NewEnricher "192.0.2.1") "remarks: Zeta@X.COM, ALPHA@x.com"
                (λ m, reflexivity (keys m)) eq_refl)
      as (_ & _ & _ & Hnormalised & _).
    rewrite Hnormalised. reflexivity.
Defined.

(** C4. The extracted addresses hold no address twice: every match is
    lower-cased before the duplicates are dropped, so every match is
    represented by its lower-cased form and by nothing else, however often
    and in whatever case it occurs.  A text whose matches are Foo@Bar.com
    and foo@bar.com gives the one address foo@bar.com. *)
Theorem extraction_dedup whois_Whois rangeKeys ip i text :
  (∀ m, rangeKeys m ≡ₚ keys m) →
  whois_Whois ip = (text, None) →
  let found := FindAllString whoisRegexp text in
  let out := result (whoisEnrichmentIP whois_Whois rangeKeys ip i) in
  NoDup out ∧
  (∀ x, x ∈ found → strings.ToLower x ∈ out) ∧
  (∀ y, y ∈ out → ∃ x, x ∈ found ∧ y = strings.ToLower x) ∧
  (∀ x, x ∈ found →
     length (filter (λ y, y = strings.ToLower x) out) = 1) ∧
  ((∀ x, x ∈ found ↔ x = "Foo@Bar.com" ∨ x = "foo@bar.com") →
     out = ["foo@bar.com"]).
Proof.
  intros Hperm Hw found out. subst out.
  rewrite (whoisEnrichmentIP_normalised _ _ Hperm _ _ _ Hw). fold found.
  split_and!.
  - apply normalised_NoDup.
  - intros x Hx. apply elem_of_normalised. eauto.
  - intros y (x & -> & Hx)%elem_of_normalised. eauto.
  - intros x Hx. apply occurs_once; [apply normalised_NoDup|].
    apply elem_of_normalised. eauto.
  - intros Hfound.
    rewrite (normalised_set found ["Foo@Bar.com"; "foo@bar.com"]); [done|].
    intros y. rewrite !list_elem_of_fmap.
    split; intros (x & -> & Hx); exists x; (split; [done|]).
    + apply Hfound in Hx as [->| ->]; [by left | by right; left].
    + apply Hfound. rewrite !elem_of_cons, elem_of_nil in Hx. tauto.
Qed.

Lemma extraction_dedup_witness :
  result (whoisEnrichmentIP Samples.whoisFooBar Samples.inOrder "192.0.2.1"
            (NewEnricher "192.0.2.1")) = ["foo@bar.com"].
Proof.
  destruct (extraction_dedup Samples.whoisFooBar Samples.inOrder "192.0.2.1"
              (NewEnricher "192.0.2.1") "e-mail: Foo@Bar.com (foo@bar.com)"
              (λ m, reflexivity (keys m)) eq_refl)
    as (_ & _ & _ & _ & Hexample).
  apply Hexample. intros x.
  change (FindAllString whoisRegexp "e-mail: Foo@Bar.com (foo@bar.com)")
    with ["Foo@Bar.com"; "foo@bar.com"].
  rewrite !elem_of_cons, elem_of_nil. tauto.
Defined.

(** C10. On a whois text with exactly one match, the general path
    (lower-case, deduplicate through the map, sort) returns what the short
    path for a single match returns, and that is what the extraction
    gives. *)
Theorem single_match_paths_agree whois_Whois rangeKeys ip i text :
  (∀ m, rangeKeys m ≡ₚ keys m) →
  whois_Whois ip = (text, None) →
  let found := FindAllString whoisRegexp text in
  length found = 1 →
  lowerSortUnique rangeKeys found = singleMatch found ∧
  result (whoisEnrichmentIP whois_Whois rangeKeys ip i) = singleMatch found ∧
  singleMatch found = strings.ToLower <$> found.
Proof.
  intros Hperm Hw found Hlen.
  rewrite (lowerSortUnique_single _ Hperm found Hlen).
  split_and!; [done | |].
  - rewrite (whoisEnrichmentIP_normalised _ _ Hperm _ _ _ Hw). fold found.
    by rewrite <-(lowerSortUnique_normalised _ Hperm), lowerSortUnique_single.
  - by rewrite (length_one found Hlen) at 2.
Qed.

Lemma single_match_paths_agree_witness :
  let found := FindAllString whoisRegexp "OrgAbuseEmail:  Abuse@Example.ORG" in
  lowerSortUnique Samples.reversed found = ["abuse@example.org"] ∧
  singleMatch found = ["abuse@example.org"] ∧
  result (whoisEnrichmentIP Samples.whoisSingle Samples.reversed "192.0.2.1"
            (NewEnricher "192.0.2.1")) = ["abuse@example.org"].
Proof.
  destruct (single_match_paths_agree Samples.whoisSingle Samples.reversed
              "192.0.2.1" (NewEnricher "192.0.2.1")
              "OrgAbuseEmail:  Abuse@Example.ORG" reversed_perm eq_refl eq_refl)
    as (Hgeneral & Hrun & _).
  split_and!; [exact Hgeneral | reflexivity | exact Hrun].
Defined.

(** ** The sentinel policy *)

Section Populated.

Variable rs : Client.
Variable whois_Whois : string → string * error.
Variable rangeKeys : gmap string () → list string.

(** A join is empty only if there is nothing to join or one empty
    string. *)
Lemma Join_empty_iff elems sep :
  sep ≠ "" → strings.Join elems sep = "" ↔ elems = [] ∨ elems = [""].
Proof.
  intros Hsep. destruct elems as [|x [|y rest]].
  - split; [by left | done].
  - simpl. split; [intros ->; by right | by intros [|[= ->]]].
  - rewrite Join_cons2. split; [|by intros [|]].
    destruct x; [|done]. destruct sep; [done | discriminate].
Qed.

Lemma abuse_source_range ip i :
  (result (enrichAbuseFromIP rs whois_Whois rangeKeys ip i)).2
    ∈ ["ripeSTAT"; "whois"; ""].
Proof.
  destruct (GetAbuseContacts rs ip) as [contacts [msg|]] eqn:Hrs.
  { rewrite (enrichAbuseFromIP_failed _ _ _ _ _ _ _ Hrs). by do 2 right; left. }
  destruct contacts as [|c contacts].
  - rewrite (enrichAbuseFromIP_fallback _ _ _ _ _ Hrs). cbv zeta. rewrite result_mk.
    destruct (result (whoisEnrichmentIP _ _ _ _)) as [|a addresses]; cbn [fst snd].
    + by do 2 right; left.
    + by right; left.
  - rewrite (enrichAbuseFromIP_primary _ _ _ _ _ _ Hrs) by done. by left.
Qed.

Lemma abuse_empty_iff ip i :
  (∀ m, rangeKeys m ≡ₚ keys m) →
  (result (enrichAbuseFromIP rs whois_Whois rangeKeys ip i)).1 = "" ↔
  GetAbuseContacts rs ip = ([""], None).
Proof.
  intros Hperm.
  destruct (GetAbuseContacts rs ip) as [contacts [msg|]] eqn:Hrs.
  { by rewrite (enrichAbuseFromIP_failed _ _ _ _ _ _ _ Hrs). }
  destruct contacts as [|c contacts].
  - rewrite (enrichAbuseFromIP_fallback _ _ _ _ _ Hrs). cbv zeta. rewrite result_mk.
    pose proof (whoisEnrichmentIP_nonempty whois_Whois rangeKeys Hperm (Ip i) i) as Hw.
    destruct (result (whoisEnrichmentIP _ _ _ _)) as [|a addresses]; cbn [fst snd];
      [done|].
    split; [|done]. intros Hjoin. by apply Join_nonempty in Hjoin.
  - rewrite (enrichAbuseFromIP_primary _ _ _ _ _ _ Hrs) by done. cbn [result fst snd].
    rewrite Join_empty_iff by done.
    split; [by intros [[=]|[= -> ->]] | intros [= -> ->]; by right].
Qed.

Lemma network_empty_iff ip i :
  let n := result (enrichPrefixAndASNFromIP rs ip i) in
  (n.1 = "" ↔
     ∃ netInfo, GetNetworkInfo rs ip = (netInfo, None) ∧ NetPrefix netInfo = "") ∧
  (n.2 = "" ↔
     ∃ netInfo, GetNetworkInfo rs ip = (netInfo, None) ∧
                head (ASNs netInfo) = Some "").
Proof.
  destruct (GetNetworkInfo rs ip) as [netInfo [msg|]] eqn:Hrs.
  { rewrite (enrichPrefixAndASNFromIP_failed _ _ _ _ _ Hrs). cbn.
    split; (split; [done | by intros (? & [=] & _)]). }
  rewrite (enrichPrefixAndASNFromIP_answered _ _ _ _ Hrs). cbn [result fst snd].
  split; split.
  - intros Hprefix. by exists netInfo.
  - by intros (? & [= <-] & ?).
  - intros Hasn. exists netInfo. split; [done|].
    destruct (ASNs netInfo); simpl in *; by subst.
  - intros (? & [= <-] & Hhead). by rewrite Hhead.
Qed.

Lemma holder_empty_iff asn i :
  result (enrichHolderFromASN rs asn i) = "" ↔
  asn ≠ "unknown" ∧
  ∃ asOverview, GetASOverview rs asn = (asOverview, None) ∧
                OverviewHolder asOverview = "".
Proof.
  destruct (decide (asn = "unknown")) as [->|Hasn].
  { split; [done | by intros [? _]]. }
  rewrite (enrichHolderFromASN_queried _ _ _ Hasn).
  destruct (GetASOverview rs asn) as [asOverview [msg|]]; cbn.
  - split; [done | by intros (_ & ? & [=] & _)].
  - split; [intros Hholder; split; [done | by exists asOverview]
           | by intros (_ & ? & [= <-] & ?)].
Qed.

Lemma geolocation_empty_iff prefix i (part : Location → string)
    (pick : string * string → string) :
  pick ("unknown", "unknown") = "unknown" →
  (∀ l, pick (LocCity l, LocCountry l) = part l) →
  pick (result (enrichCityAndCountryFromPrefix rs prefix i)) = "" ↔
  prefix ≠ "unknown" ∧
  ∃ geolocation resource location,
    GetGeolocationData rs prefix = (geolocation, None) ∧
    head (LocatedResources geolocation) = Some resource ∧
    head (Locations resource) = Some location ∧
    part location = "".
Proof.
  intros Hunknown Hpart.
  destruct (decide (prefix = "unknown")) as [->|Hprefix].
  { rewrite enrichCityAndCountryFromPrefix_unknown, result_mk, Hunknown.
    split; [done | by intros [? _]]. }
  rewrite (enrichCityAndCountryFromPrefix_queried _ _ _ Hprefix).
  destruct (GetGeolocationData rs prefix) as [geolocation [msg|]]; rewrite result_mk.
  { rewrite Hunknown. split; [done | by intros (_ & ? & ? & ? & [=] & _)]. }
  destruct (LocatedResources geolocation) as [|resource others] eqn:Hres.
  { rewrite Hunknown. split; [done|].
    intros (_ & ? & ? & ? & [= <-] & Hhead & _). by rewrite Hres in Hhead. }
  destruct (Locations resource) as [|location more] eqn:Hloc.
  { rewrite Hunknown. split; [done|].
    intros (_ & ? & ? & ? & [= <-] & Hhead & Hhead' & _).
    rewrite Hres in Hhead. injection Hhead as <-. by rewrite Hloc in Hhead'. }
  rewrite Hpart. split.
  - intros Hempty. split; [done|]. exists geolocation, resource, location.
    by rewrite Hres, Hloc.
  - intros (_ & ? & ? & ? & [= <-] & Hhead & Hhead' & Hempty).
    rewrite Hres in Hhead. injection Hhead as <-.
    rewrite Hloc in Hhead'. by injection Hhead' as <-.
Qed.

End Populated.

(** C2, as amended.  Whatever the collaborators answer, the record
    carries the IP it was asked about and a source tag that is "ripeSTAT",
    "whois" or empty, and each other field is empty in one case only, when
    the string it is copied from in a successful answer is empty:
    abuse, when the abuse lookup succeeds with the single contact "";
    prefix, when the network lookup succeeds with an empty prefix;
    asn, when it succeeds with an empty first ASN;
    holder, when the AS overview of the record's asn (not "unknown")
    succeeds with an empty holder;
    city and country, when the geolocation of the record's prefix (not
    "unknown") succeeds and the first location of its first located
    resource has an empty city, respectively country.
    In every other case the field is not empty. *)
Theorem fields_populated rs whois_Whois rangeKeys ipAddr i :
  let r := result (EnrichIP rs whois_Whois rangeKeys ipAddr i) in
  let firstLocation (part : Location → string) : Prop :=
    Prefix r ≠ "unknown" ∧
    ∃ geolocation resource location,
      GetGeolocationData rs (Prefix r) = (geolocation, None) ∧
      head (LocatedResources geolocation) = Some resource ∧
      head (Locations resource) = Some location ∧
      part location = "" in
  Ip r = ipAddr ∧
  Abuse_source r ∈ ["ripeSTAT"; "whois"; ""] ∧
  ((∀ m, rangeKeys m ≡ₚ keys m) →
     (Abuse r = "" ↔ GetAbuseContacts rs ipAddr = ([""], None))) ∧
  (Prefix r = "" ↔
     ∃ netInfo, GetNetworkInfo rs ipAddr = (netInfo, None) ∧
                NetPrefix netInfo = "") ∧
  (Asn r = "" ↔
     ∃ netInfo, GetNetworkInfo rs ipAddr = (netInfo, None) ∧
                head (ASNs netInfo) = Some "") ∧
  (Holder r = "" ↔
     Asn r ≠ "unknown" ∧
     ∃ asOverview, GetASOverview rs (Asn r) = (asOverview, None) ∧
                   OverviewHolder asOverview = "") ∧
  (City r = "" ↔ firstLocation LocCity) ∧
  (Country r = "" ↔ firstLocation LocCountry).
Proof.
  intros r firstLocation. subst r firstLocation. rewrite EnrichIP_run. cbv zeta.
  rewrite result_mk. cbn [Ip Abuse Abuse_source Prefix Asn Holder City Country].
  split_and!.
  - done.
  - apply abuse_source_range.
  - intros Hperm. by apply abuse_empty_iff.
  - apply network_empty_iff.
  - apply network_empty_iff.
  - apply holder_empty_iff.
  - by apply (geolocation_empty_iff rs _ _ LocCity fst).
  - by apply (geolocation_empty_iff rs _ _ LocCountry snd).
Qed.

Lemma fields_populated_witness :
  let r := result (EnrichIP Samples.trailing Samples.whoisOps Samples.reversed
                            "203.0.113.5" (NewEnricher "203.0.113.5")) in
  Ip r = "203.0.113.5" ∧
  Abuse_source r ∈ ["ripeSTAT"; "whois"; ""] ∧
  Abuse r ≠ "" ∧ Prefix r ≠ "" ∧ Asn r ≠ "" ∧
  Holder r ≠ "" ∧ City r ≠ "" ∧ Country r ≠ "".
Proof.
  destruct (fields_populated Samples.trailing Samples.whoisOps Samples.reversed
              "203.0.113.5" (NewEnricher "203.0.113.5"))
    as (Hip & Hsource & Habuse & Hprefix & Hasn & Hholder & Hcity & Hcountry).
  split_and!; [exact Hip | exact Hsource | ..].
  - intros Hempty. by apply (Habuse reversed_perm) in Hempty.
  - by intros (netInfo & [= <-] & ?)%Hprefix.
  - by intros (netInfo & [= <-] & ?)%Hasn.
  - by intros (_ & asOverview & [= <-] & ?)%Hholder.
  - by intros (_ & g & res & l & [= <-] & [= <-] & [= <-] & ?)%Hcity.
  - by intros (_ & g & res & l & [= <-] & [= <-] & [= <-] & ?)%Hcountry.
Defined.

(** C2 as stated fails: every lookup succeeds and carries empty strings,
    and abuse, prefix, asn, holder, city and country are all empty. *)
Lemma hollow_answers_counterexample :
  let r := result (EnrichIP Samples.hollow Samples.whoisNone Samples.inOrder
                            "203.0.113.5" (NewEnricher "203.0.113.5")) in
  r = mkEnrichInfo "203.0.113.5" "" "ripeSTAT" "" "" "" "" "" ∧
  ¬ (Abuse r ≠ "" ∧ Prefix r ≠ "" ∧ Asn r ≠ "" ∧
     Holder r ≠ "" ∧ City r ≠ "" ∧ Country r ≠ "").
Proof. split; [reflexivity|]. by intros [Habuse _]. Qed.

(** ** The public entry point and the documented scenarios *)

(** [Enrich] is [EnrichIP] on the receiver's own IP. *)
Lemma Enrich_run rs whois_Whois rangeKeys i :
  Enrich rs whois_Whois rangeKeys i = EnrichIP rs whois_Whois rangeKeys (Ip i) i.
Proof.
  unfold Enrich. cbv [mbind M_bind field].
  by destruct (EnrichIP _ _ _ _ _) as [[r i'] t].
Qed.

(** The end-to-end scenario in which every lookup answers. *)
Example scenario_rotterdam :
  result (Enrich Samples.rotterdam Samples.whoisNone Samples.inOrder
                 (NewEnricher "203.0.113.5")) =
    mkEnrichInfo "203.0.113.5" "abuse@example.net" "ripeSTAT" "203.0.113.0/24"
                 "64500" "EXAMPLE-NET" "Rotterdam" "NL".
Proof. reflexivity. Qed.

(** What the scan reports on some shapes of text: a trailing hyphen or dot
    is not part of the address, an empty label ends it, and a label stops
    at 63 bytes. *)
Example scan_shapes :
  FindAllString whoisRegexp "x zeta@x.com, alpha@x.com-. a@b..c @a a@ a@-b a.b@c-d.e-f.g"
    = ["zeta@x.com"; "alpha@x.com"; "a@b"; "a.b@c-d.e-f.g"] ∧
  FindAllString whoisRegexp "" = [] ∧
  FindAllString whoisRegexp "no address here" = [].
Proof. by vm_compute. Qed.

(** ** The matcher against the language *)

Section Language.

Lemma append_assoc (a b c : string) : (a ++ b) ++ c = a ++ (b ++ c).
Proof. induction a as [|x a IH]; [done|]. exact (f_equal (String x) IH). Qed.

Lemma append_nil_r (a : string) : a ++ "" = a.
Proof. induction a as [|x a IH]; [done|]. exact (f_equal (String x) IH). Qed.

Lemma length_append (a b : string) :
  String.length (a ++ b) = String.length a + String.length b.
Proof. induction a as [|x a IH]; [done|]. exact (f_equal S IH). Qed.

Lemma length_nonempty (a : string) : a ≠ "" ↔ (0 < String.length a)%nat.
Proof. destruct a; simpl; split; (done || lia). Qed.

Lemma substring_prefix (p rest : string) :
  substring 0 (String.length p) (p ++ rest) = p.
Proof.
  induction p as [|c p IH]; [by destruct rest|].
  exact (f_equal (String c) IH).
Qed.

(** *** What the matcher accepts is in the language *)

Lemma star_sound r k x :
  (∀ s c, run r s c = Some x →
     ∃ p s', s = p ++ s' ∧ Matches r p ∧ c s' = Some x) →
  ∀ fuel s, star (run r) k fuel s = Some x →
    ∃ p s', s = p ++ s' ∧ Matches (Star r) p ∧ k s' = Some x.
Proof.
  intros Hbody. induction fuel as [|fuel IH]; intros s; simpl.
  { intros Hk. exists "", s. split_and!; [done | constructor | done]. }
  destruct (run r s _) as [y|] eqn:Hb; simpl.
  - intros [= ->]. apply Hbody in Hb as (p1 & s1 & -> & Hp1 & Hs1).
    destruct (_ <? _)%nat eqn:Hlt; [|done].
    apply Nat.ltb_lt in Hlt. rewrite length_append in Hlt.
    apply IH in Hs1 as (p2 & s2 & -> & Hp2 & Hs2).
    exists (p1 ++ p2), s2. split_and!; [by rewrite append_assoc | | done].
    constructor; [done | | done]. apply length_nonempty. lia.
  - intros Hk. exists "", s. split_and!; [done | constructor | done].
Qed.

Lemma upTo_sound r k x :
  (∀ s c, run r s c = Some x →
     ∃ p s', s = p ++ s' ∧ Matches r p ∧ c s' = Some x) →
  ∀ n s, upTo (run r) k n s = Some x →
    ∃ p s', s = p ++ s' ∧ Matches (UpTo n r) p ∧ k s' = Some x.
Proof.
  intros Hbody. induction n as [|n IH]; intros s; simpl.
  { intros Hk. exists "", s. split_and!; [done | constructor | done]. }
  destruct (run r s _) as [y|] eqn:Hb; simpl.
  - intros [= ->]. apply Hbody in Hb as (p1 & s1 & -> & Hp1 & Hs1).
    apply IH in Hs1 as (p2 & s2 & -> & Hp2 & Hs2).
    exists (p1 ++ p2), s2. split_and!; [by rewrite append_assoc | | done].
    by constructor.
  - intros Hk. exists "", s. split_and!; [done | constructor | done].
Qed.

Lemma run_sound r : ∀ s k x,
  run r s k = Some x →
  ∃ p s', s = p ++ s' ∧ Matches r p ∧ k s' = Some x.
Proof.
  induction r as [q|c0|r1 IH1 r2 IH2|r IH|r IH|n r IH]; intros s k x; simpl.
  - destruct s as [|c s]; [done|]. destruct (q c) eqn:Hq; [|done].
    intros Hk. exists (String c ""), s. split_and!; [done | by constructor | done].
  - destruct s as [|c s]; [done|]. destruct (Ascii.eqb_spec c c0) as [->|]; [|done].
    intros Hk. exists (String c0 ""), s. split_and!; [done | constructor | done].
  - intros (p1 & s1 & -> & Hp1 & (p2 & s2 & -> & Hp2 & Hs2)%IH2)%IH1.
    exists (p1 ++ p2), s2. split_and!; [by rewrite append_assoc | by constructor | done].
  - destruct (run r s k) as [y|] eqn:Hr; simpl.
    + intros [= ->]. apply IH in Hr as (p & s' & -> & Hp & Hs').
      exists p, s'. split_and!; [done | by constructor | done].
    + intros Hk. exists "", s. split_and!; [done | constructor | done].
  - apply star_sound. intros s0 c. apply IH.
  - apply upTo_sound. intros s0 c. apply IH.
Qed.

(** *** What is in the language is accepted *)

Lemma orElse_some a b : a ≠ None ∨ b ≠ None → orElse a b ≠ None.
Proof. destruct a; simpl; [done | by intros [|]]. Qed.

Lemma star_accepts body k fuel s : k s ≠ None → star body k fuel s ≠ None.
Proof. destruct fuel; simpl; [done|]. intros Hk. apply orElse_some. by right. Qed.

Lemma upTo_accepts body k n s : k s ≠ None → upTo body k n s ≠ None.
Proof. destruct n; simpl; [done|]. intros Hk. apply orElse_some. by right. Qed.

Lemma run_complete r p :
  Matches r p → ∀ s' k, k s' ≠ None → run r (p ++ s') k ≠ None.
Proof.
  induction 1 as [q c Hq|c|r1 r2 p1 p2 _ IH1 _ IH2|r|r p _ IH|r
                  |r p1 p2 _ IH1 Hne _ IH2|n r|n r p1 p2 _ IH1 _ IH2];
    intros s' k Hk.
  - simpl. by rewrite Hq.
  - simpl. by rewrite Ascii.eqb_refl.
  - rewrite append_assoc. cbn [run]. apply IH1. by apply IH2.
  - cbn [run]. apply orElse_some. by right.
  - cbn [run]. apply orElse_some. left. by apply IH.
  - cbn [run]. by apply star_accepts.
  - rewrite append_assoc. cbn [run].
    destruct (String.length (p1 ++ p2 ++ s')) as [|fuel] eqn:Hlen.
    { apply length_nonempty in Hne. rewrite length_append in Hlen. lia. }
    cbn [star]. apply orElse_some. left. apply IH1.
    rewrite length_append in Hlen.
    replace (_ <? _)%nat with true
      by (symmetry; apply Nat.ltb_lt; rewrite (length_append p1);
          apply length_nonempty in Hne; lia).
    rewrite star_fuel_enough by (apply length_nonempty in Hne; lia).
    by apply (IH2 s' k).
  - cbn [run]. by apply upTo_accepts.
  - rewrite append_assoc. cbn [run upTo]. apply orElse_some. left.
    apply IH1. by apply (IH2 s' k).
Qed.

(** The matcher finds a match at the start of [s] exactly when some
    prefix of [s] is in the language, and what it finds is such a
    prefix. *)
Lemma matchAt_some r s len :
  matchAt r s = Some len →
  ∃ p rest, s = p ++ rest ∧ Matches r p ∧ len = String.length p.
Proof.
  unfold matchAt. destruct (run r s Some) as [rest|] eqn:Hrun; [|done].
  intros [= <-]. apply run_sound in Hrun as (p & s' & -> & Hp & [= ->]).
  exists p, rest. split_and!; [done | done |]. rewrite length_append. lia.
Qed.

Lemma matchAt_none r s p rest :
  matchAt r s = None → s = p ++ rest → ¬ Matches r p.
Proof.
  unfold matchAt. destruct (run r s Some) as [x|] eqn:Hrun; [done|].
  intros _ -> Hp. by apply (run_complete r p Hp rest Some) in Hrun.
Qed.

End Language.

(** ** What the scan reports *)

Section Scan.

Lemma Woven_prepend gap s ms : Woven s ms → Woven (gap ++ s) ms.
Proof.
  destruct 1 as [g|g m s ms Hs]; [constructor|].
  rewrite <-append_assoc. by constructor.
Qed.

Lemma append_same_length (a b c d : string) :
  a ++ b = c ++ d → String.length a = String.length c → a = c ∧ b = d.
Proof.
  revert c. induction a as [|x a IH]; intros [|y c]; try done.
  intros [= -> Hrest] [= Hlen]. by destruct (IH _ Hrest Hlen) as [-> ->].
Qed.

Lemma scan_woven r s : ∀ skip,
  (skip ≤ String.length s)%nat →
  ∃ a b, s = a ++ b ∧ String.length a = skip ∧ Woven b (scan r s skip).
Proof.
  induction s as [|c s IH]; intros skip Hskip.
  { exists "", "". destruct skip; [|simpl in Hskip; lia].
    split_and!; [done | done | constructor]. }
  destruct skip as [|n]; cbn [scan].
  - exists "", (String c s). split; [done|]. split; [done|].
    destruct (matchAt r (String c s)) as [len|] eqn:Hm.
    + apply matchAt_some in Hm as (p & rest & Hs & _ & ->).
      destruct p as [|c' p].
      * cbn [String.length substring Nat.sub].
        destruct (IH 0) as (a & b & Hab & Ha & Hw); [lia|].
        destruct a; [|done]. change ("" ++ b) with b in Hab. subst b.
        apply (WovenMatch "" "" (String c s)).
        by apply (Woven_prepend (String c "")).
      * injection Hs as <- Hs. subst s.
        change (String c (p ++ rest)) with (String c p ++ rest) at 2.
        rewrite substring_prefix. cbn [String.length Nat.sub]. rewrite Nat.sub_0_r.
        destruct (IH (String.length p)) as (a & b & Hab & Ha & Hw).
        { rewrite length_append. lia. }
        apply append_same_length in Hab as [<- <-]; [|done].
        by apply (WovenMatch "" (String c p) rest).
    + destruct (IH 0) as (a & b & -> & Ha & Hw); [lia|].
      destruct a; [|done]. by apply (Woven_prepend (String c "")).
  - simpl in Hskip. destruct (IH n) as (a & b & -> & Ha & Hw); [lia|].
    exists (String c a), b. split_and!; [done | by simpl; f_equal | done].
Qed.

Lemma scan_matches r s : ∀ skip x, x ∈ scan r s skip → Matches r x.
Proof.
  induction s as [|c s IH]; intros skip x; cbn [scan]; [by intros ?%elem_of_nil|].
  destruct skip as [|n]; [|apply IH].
  destruct (matchAt r (String c s)) as [len|] eqn:Hm; [|apply IH].
  intros [->|Hin]%elem_of_cons; [|by eapply IH].
  apply matchAt_some in Hm as (p & rest & -> & Hp & ->).
  by rewrite substring_prefix.
Qed.

Lemma scan_finds r a p b :
  Matches r p → p ≠ "" → scan r (a ++ p ++ b) 0 ≠ [].
Proof.
  intros Hp Hne. induction a as [|c a IH].
  - change ("" ++ p ++ b) with (p ++ b).
    destruct (p ++ b) as [|c s] eqn:Hs; [by destruct p|]. cbn [scan].
    destruct (matchAt r (String c s)) as [len|] eqn:Hm; [done|].
    by destruct (matchAt_none r _ p b Hm).
  - change (String c a ++ p ++ b) with (String c (a ++ p ++ b)). cbn [scan].
    by destruct (matchAt r _).
Qed.

End Scan.

(** ** The shape of an address *)

Section Shape.

Lemma allChars_app q a b : allChars q (a ++ b) = allChars q a && allChars q b.
Proof.
  induction a as [|c a IH]; [done|].
  change (allChars q (String c a ++ b)) with (q c && allChars q (a ++ b)).
  rewrite IH. simpl. by rewrite andb_assoc.
Qed.

Lemma Matches_within q r p : within q r → Matches r p → allChars q p = true.
Proof.
  intros Hr Hp. induction Hp; cbn [within] in Hr;
    rewrite ?allChars_app; simpl; rewrite ?andb_true_r; auto.
  - rewrite IHHp1, IHHp2; [done | apply Hr..].
  - rewrite IHHp1, IHHp2; done.
  - rewrite IHHp1, IHHp2; done.
Qed.

Lemma Matches_Cat r1 r2 p :
  Matches (Cat r1 r2) p → ∃ p1 p2, p = p1 ++ p2 ∧ Matches r1 p1 ∧ Matches r2 p2.
Proof. inversion 1; subst; eauto. Qed.

Lemma Matches_Class q p : Matches (Class q) p → ∃ c, p = String c "" ∧ q c = true.
Proof. inversion 1; subst; eauto. Qed.

Lemma Matches_Lit c p : Matches (Lit c) p → p = String c "".
Proof. by inversion 1. Qed.

Lemma alnum_domain c : alnum c = true → domain_part c = true.
Proof. unfold domain_part, alnum_hyphen. by intros ->. Qed.

Lemma alnum_hyphen_domain c : alnum_hyphen c = true → domain_part c = true.
Proof. unfold domain_part. by intros ->. Qed.

Lemma label_within : within domain_part label.
Proof.
  cbn. split_and!; auto using alnum_domain, alnum_hyphen_domain.
Qed.

(** A match of [whoisRegexp] is a non-empty local part, an "@", and a
    domain that starts with a letter or digit. *)
Lemma whoisRegexp_shape p :
  Matches whoisRegexp p →
  ∃ l d, p = l ++ "@" ++ d ∧
    l ≠ "" ∧ allChars local_part l = true ∧
    allChars domain_part d = true ∧
    ∃ c d', d = String c d' ∧ alnum c = true.
Proof.
  unfold whoisRegexp. intros (l & rest & -> & Hl & Hrest)%Matches_Cat.
  apply Matches_Cat in Hrest as (at_ & d & -> & ->%Matches_Lit & Hd).
  exists l, d. split; [done|]. split_and!.
  - apply Matches_Cat in Hl as (c & l' & -> & (c0 & -> & _)%Matches_Class & _). done.
  - apply (Matches_within local_part) in Hl; [done|]. by cbn.
  - apply (Matches_within domain_part) in Hd; [done|].
    cbn [within]. split; [apply label_within|]. split; [done | apply label_within].
  - apply Matches_Cat in Hd as (d1 & d2 & -> & Hd1 & _).
    apply Matches_Cat in Hd1 as (c & d1' & -> & (c0 & -> & Hc0)%Matches_Class & _).
    by exists c0, (d1' ++ d2).
Qed.

Lemma lower_byte_idempotent c :
  strings.lower_byte (strings.lower_byte c) = strings.lower_byte c.
Proof. by destruct c as [[] [] [] [] [] [] [] []]. Qed.

Lemma ToLower_idempotent s :
  strings.ToLower (strings.ToLower s) = strings.ToLower s.
Proof.
  induction s as [|c s IH]; [done|]. simpl.
  by rewrite lower_byte_idempotent, IH.
Qed.

Lemma lower_byte_local c :
  local_part c = true → local_part (strings.lower_byte c) = true.
Proof. by destruct c as [[] [] [] [] [] [] [] []]. Qed.

Lemma lower_byte_domain c :
  domain_part c = true → domain_part (strings.lower_byte c) = true.
Proof. by destruct c as [[] [] [] [] [] [] [] []]. Qed.

Lemma lower_byte_alnum c :
  alnum c = true → alnum (strings.lower_byte c) = true.
Proof. by destruct c as [[] [] [] [] [] [] [] []]. Qed.

Lemma ToLower_app a b :
  strings.ToLower (a ++ b) = strings.ToLower a ++ strings.ToLower b.
Proof.
  induction a as [|c a IH]; [done|].
  exact (f_equal (String (strings.lower_byte c)) IH).
Qed.

Lemma ToLower_allChars q s :
  (∀ c, q c = true → q (strings.lower_byte c) = true) →
  allChars q s = true → allChars q (strings.ToLower s) = true.
Proof.
  intros Hq. induction s as [|c s IH]; [done|]. simpl.
  intros [Hc Hs]%andb_true_iff. by rewrite Hq, IH.
Qed.

End Shape.

(** ** More about a run *)

Section Observed.

Variable rs : Client.
Variable whois_Whois : string → string * error.
Variable rangeKeys : gmap string () → list string.

Lemma collaboratorCalls_app t1 t2 :
  collaboratorCalls (t1 ++ t2) = (collaboratorCalls t1 ++ collaboratorCalls t2)%list.
Proof. apply List.filter_app. Qed.

Lemma warnings_app t1 t2 : warnings (t1 ++ t2) = (warnings t1 ++ warnings t2)%list.
Proof. apply omap_app. Qed.

Lemma whoisEnrichmentIP_observed ip i :
  let w := whoisEnrichmentIP whois_Whois rangeKeys ip i in
  collaboratorCalls (events w) = [CallWhois ip] ∧ warnings (events w) = [].
Proof.
  unfold whoisEnrichmentIP.
  cbv [mbind M_bind mret M_ret call emit logrus.Debug result events fst snd].
  destruct (whois_Whois ip) as [whoisInfo err].
  destruct (_ || _); [done|].
  by destruct (length _) as [|[|n]].
Qed.

Lemma enrichAbuseFromIP_observed ip i :
  let a := enrichAbuseFromIP rs whois_Whois rangeKeys ip i in
  collaboratorCalls (events a) =
    CallGetAbuseContacts ip ::
      (if bool_decide (GetAbuseContacts rs ip = ([], None))
       then [CallWhois (Ip i)] else []) ∧
  warnings (events a) =
    match (GetAbuseContacts rs ip).2 with
    | Some msg => ["abuse contacts err: " ++ msg]
    | None => []
    end.
Proof.
  destruct (GetAbuseContacts rs ip) as [contacts [msg|]] eqn:Hrs.
  { rewrite (enrichAbuseFromIP_failed _ _ _ _ _ _ _ Hrs).
    by rewrite bool_decide_eq_false_2. }
  destruct contacts as [|c contacts].
  - rewrite (enrichAbuseFromIP_fallback _ _ _ _ _ Hrs). cbv zeta.
    rewrite events_mk, bool_decide_eq_true_2 by done.
    destruct (whoisEnrichmentIP_observed (Ip i) i) as [Hcalls Hwarn].
    split; [exact (f_equal (cons _) Hcalls) | exact Hwarn].
  - rewrite (enrichAbuseFromIP_primary _ _ _ _ _ _ Hrs) by done.
    by rewrite bool_decide_eq_false_2.
Qed.

Lemma enrichPrefixAndASNFromIP_observed ip i :
  let n := enrichPrefixAndASNFromIP rs ip i in
  collaboratorCalls (events n) = [CallGetNetworkInfo ip] ∧
  warnings (events n) =
    match (GetNetworkInfo rs ip).2 with
    | Some msg => ["network info err: " ++ msg]
    | None => []
    end.
Proof.
  destruct (GetNetworkInfo rs ip) as [netInfo [msg|]] eqn:Hrs.
  - by rewrite (enrichPrefixAndASNFromIP_failed _ _ _ _ _ Hrs).
  - by rewrite (enrichPrefixAndASNFromIP_answered _ _ _ _ Hrs).
Qed.

Lemma enrichHolderFromASN_observed asn i :
  let h := enrichHolderFromASN rs asn i in
  collaboratorCalls (events h) =
    (if bool_decide (asn = "unknown") then [] else [CallGetASOverview asn]) ∧
  warnings (events h) =
    (if bool_decide (asn = "unknown") then []
     else match (GetASOverview rs asn).2 with
          | Some msg => ["holder err: " ++ msg]
          | None => []
          end).
Proof.
  destruct (decide (asn = "unknown")) as [->|Hasn]; [done|].
  rewrite (enrichHolderFromASN_queried _ _ _ Hasn), bool_decide_eq_false_2 by done.
  by destruct (GetASOverview rs asn) as [asOverview [msg|]].
Qed.

Lemma enrichCityAndCountryFromPrefix_observed prefix i :
  let g := enrichCityAndCountryFromPrefix rs prefix i in
  collaboratorCalls (events g) =
    (if bool_decide (prefix = "unknown") then []
     else [CallGetGeolocationData prefix]) ∧
  warnings (events g) =
    (if bool_decide (prefix = "unknown") then []
     else match (GetGeolocationData rs prefix).2 with
          | Some msg => ["geolocation err: " ++ msg]
          | None => []
          end).
Proof.
  destruct (decide (prefix = "unknown")) as [->|Hprefix]; [done|].
  rewrite (enrichCityAndCountryFromPrefix_queried _ _ _ Hprefix),
    bool_decide_eq_false_2 by done.
  by destruct (GetGeolocationData rs prefix) as [geolocation [msg|]].
Qed.

End Observed.

(** X1. When the primary source has no contact and whois has none either
    (the lookup fails, or the text holds no address, which includes the
    empty text), the record says abuse "unknown" with an empty source tag,
    after exactly one whois lookup. *)
Theorem both_sources_empty rs whois_Whois rangeKeys ipAddr i text werr :
  GetAbuseContacts rs ipAddr = ([], None) →
  whois_Whois ipAddr = (text, werr) →
  werr ≠ None ∨ FindAllString whoisRegexp text = [] →
  let run := EnrichIP rs whois_Whois rangeKeys ipAddr i in
  Abuse (result run) = "unknown" ∧
  Abuse_source (result run) = "" ∧
  calls isWhois (events run) = 1.
Proof.
  intros Hrs Hw Hnone run. subst run. rewrite EnrichIP_run. cbv zeta.
  rewrite result_mk, events_mk. cbn [Abuse Abuse_source].
  rewrite (enrichAbuseFromIP_fallback _ _ _ _ _ Hrs). cbv zeta.
  rewrite result_mk, events_mk. cbn [Ip newEnrichInfo].
  assert (result (whoisEnrichmentIP whois_Whois rangeKeys ipAddr
                    (newEnrichInfo ipAddr)) = []) as Hempty.
  { destruct (decide (werr ≠ None ∨ text = "")) as [Hun|Hav].
    { by apply (whoisEnrichmentIP_unavailable _ _ _ _ text werr). }
    destruct Hnone as [?|Hfound]; [tauto|].
    destruct werr as [msg|]; [by destruct Hav; left|].
    rewrite (whoisEnrichmentIP_found _ _ _ _ _ Hw) by tauto.
    cbv zeta. by rewrite Hfound. }
  rewrite Hempty. split_and!; [done | done |].
  silence isWhois. cbn [calls isWhois]. by rewrite whoisEnrichmentIP_calls.
Qed.

Lemma both_sources_empty_witness :
  let run := EnrichIP Samples.blank Samples.whoisNone Samples.inOrder
                      "203.0.113.5" (NewEnricher "203.0.113.5") in
  Abuse (result run) = "unknown" ∧
  Abuse_source (result run) = "" ∧
  calls isWhois (events run) = 1.
Proof.
  apply (both_sources_empty Samples.blank Samples.whoisNone Samples.inOrder
           "203.0.113.5" (NewEnricher "203.0.113.5") "" Samples.failed).
  - reflexivity.
  - reflexivity.
  - right. reflexivity.
Defined.

(** X2. [EnrichIP] starts from scratch: the record, the receiver it
    leaves and the trace are the same whatever the receiver held before;
    the receiver ends up holding the very record that is returned, and the
    record carries the IP that was asked for. *)
Theorem EnrichIP_resets_receiver rs whois_Whois rangeKeys ipAddr i j :
  EnrichIP rs whois_Whois rangeKeys ipAddr i =
    EnrichIP rs whois_Whois rangeKeys ipAddr j ∧
  receiver (EnrichIP rs whois_Whois rangeKeys ipAddr i) =
    result (EnrichIP rs whois_Whois rangeKeys ipAddr i) ∧
  Ip (result (EnrichIP rs whois_Whois rangeKeys ipAddr i)) = ipAddr.
Proof. by rewrite !EnrichIP_run. Qed.

(** X3. [Enrich] on a new enricher enriches the IP it was made for.
    [Enrich] on an enricher that has run [EnrichIP] on some IP before
    enriches that IP again, as a new enricher for it would: nothing but
    the IP is taken over from the earlier run, whatever the collaborators
    answered then and whatever they answer now. *)
Theorem Enrich_reenriches rs whois_Whois rangeKeys rs' whois_Whois' rangeKeys'
    ipAddr i :
  Enrich rs whois_Whois rangeKeys (NewEnricher ipAddr) =
    EnrichIP rs whois_Whois rangeKeys ipAddr (NewEnricher ipAddr) ∧
  Enrich rs' whois_Whois' rangeKeys'
         (receiver (EnrichIP rs whois_Whois rangeKeys ipAddr i)) =
    Enrich rs' whois_Whois' rangeKeys' (NewEnricher ipAddr).
Proof.
  rewrite !Enrich_run. split; [done|].
  rewrite (EnrichIP_run _ _ _ ipAddr i). cbv zeta. unfold receiver. cbn [fst snd Ip].
  by rewrite !EnrichIP_run.
Qed.

(** X4. The collaborators are called in one fixed order and never twice:
    abuse contacts for the IP; whois for the IP, exactly when the abuse
    lookup succeeded with no contact; network info for the IP; the AS
    overview for the record's asn unless that is "unknown"; geolocation for
    the record's prefix unless that is "unknown". *)
Theorem call_sequence rs whois_Whois rangeKeys ipAddr i :
  let run := EnrichIP rs whois_Whois rangeKeys ipAddr i in
  let r := result run in
  collaboratorCalls (events run) =
    ([CallGetAbuseContacts ipAddr] ++
     (if bool_decide (GetAbuseContacts rs ipAddr = ([], None))
      then [CallWhois ipAddr] else []) ++
     [CallGetNetworkInfo ipAddr] ++
     (if bool_decide (Asn r = "unknown") then [] else [CallGetASOverview (Asn r)]) ++
     (if bool_decide (Prefix r = "unknown") then []
      else [CallGetGeolocationData (Prefix r)]))%list.
Proof.
  intros run r. subst r run. rewrite EnrichIP_run. cbv zeta.
  rewrite result_mk, events_mk. cbn [Asn Prefix].
  rewrite !collaboratorCalls_app.
  rewrite (proj1 (enrichAbuseFromIP_observed _ _ _ _ _)),
    (proj1 (enrichPrefixAndASNFromIP_observed _ _ _)),
    (proj1 (enrichHolderFromASN_observed _ _ _)),
    (proj1 (enrichCityAndCountryFromPrefix_observed _ _ _)).
  done.
Qed.

(** X5. The warnings of a run are those of the primary lookups that were
    made and failed, one each, in the order of the steps; a run without
    such a failure logs no warning, and whois never causes one. *)
Theorem warnings_are_failures rs whois_Whois rangeKeys ipAddr i :
  let run := EnrichIP rs whois_Whois rangeKeys ipAddr i in
  let r := result run in
  let warning (what : string) (err : error) : list string :=
    match err with Some msg => [what ++ msg] | None => [] end in
  warnings (events run) =
    (warning "abuse contacts err: " (GetAbuseContacts rs ipAddr).2 ++
     warning "network info err: " (GetNetworkInfo rs ipAddr).2 ++
     (if bool_decide (Asn r = "unknown") then []
      else warning "holder err: " (GetASOverview rs (Asn r)).2) ++
     (if bool_decide (Prefix r = "unknown") then []
      else warning "geolocation err: " (GetGeolocationData rs (Prefix r)).2))%list.
Proof.
  intros run r. subst r run. rewrite EnrichIP_run. cbv zeta.
  rewrite result_mk, events_mk. cbn [Asn Prefix].
  rewrite !warnings_app.
  rewrite (proj2 (enrichAbuseFromIP_observed _ _ _ _ _)),
    (proj2 (enrichPrefixAndASNFromIP_observed _ _ _)),
    (proj2 (enrichHolderFromASN_observed _ _ _)),
    (proj2 (enrichCityAndCountryFromPrefix_observed _ _ _)).
  done.
Qed.

(** X6. When the record's asn is not "unknown", the holder is the holder
    name of the AS overview for that asn, as it is, if the lookup succeeds,
    and "unknown" if it fails. *)
Theorem known_asn_holder rs whois_Whois rangeKeys ipAddr i :
  let r := result (EnrichIP rs whois_Whois rangeKeys ipAddr i) in
  Asn r ≠ "unknown" →
  Holder r =
    match GetASOverview rs (Asn r) with
    | (_, Some _) => "unknown"
    | (asOverview, None) => OverviewHolder asOverview
    end.
Proof.
  intros r. subst r. rewrite EnrichIP_run. cbv zeta.
  rewrite result_mk. cbn [Asn Holder]. intros Hasn.
  rewrite (enrichHolderFromASN_queried _ _ _ Hasn).
  by destruct (GetASOverview rs _) as [asOverview [msg|]].
Qed.

Lemma known_asn_holder_witness :
  Holder (result (EnrichIP Samples.rotterdam Samples.whoisNone Samples.inOrder
                           "203.0.113.5" (NewEnricher "203.0.113.5")))
    = "EXAMPLE-NET".
Proof.
  apply (known_asn_holder Samples.rotterdam Samples.whoisNone Samples.inOrder
           "203.0.113.5" (NewEnricher "203.0.113.5")).
  discriminate.
Defined.

(** X7. The source tag tells where the abuse field comes from: it is
    "ripeSTAT" exactly when the primary lookup succeeded with a contact,
    "whois" exactly when it succeeded without one and the whois extraction
    gave an address, and when it is empty the abuse field is "unknown". *)
Theorem source_tag_tells_source rs whois_Whois rangeKeys ipAddr i :
  let r := result (EnrichIP rs whois_Whois rangeKeys ipAddr i) in
  let extracted :=
    result (whoisEnrichmentIP whois_Whois rangeKeys ipAddr (newEnrichInfo ipAddr)) in
  (Abuse_source r = "ripeSTAT" ↔
     ∃ contacts, GetAbuseContacts rs ipAddr = (contacts, None) ∧ contacts ≠ []) ∧
  (Abuse_source r = "whois" ↔
     GetAbuseContacts rs ipAddr = ([], None) ∧ extracted ≠ []) ∧
  (Abuse_source r = "" → Abuse r = "unknown").
Proof.
  intros r extracted. subst r extracted. rewrite EnrichIP_run. cbv zeta.
  rewrite result_mk. cbn [Abuse Abuse_source].
  destruct (GetAbuseContacts rs ipAddr) as [contacts [msg|]] eqn:Hrs.
  { rewrite (enrichAbuseFromIP_failed _ _ _ _ _ _ _ Hrs). cbn [result fst snd].
    split_and!; [|naive_solver..]. split; [done|]. by intros (? & [=] & _). }
  destruct contacts as [|c contacts].
  - rewrite (enrichAbuseFromIP_fallback _ _ _ _ _ Hrs). cbv zeta.
    rewrite result_mk. cbn [Ip newEnrichInfo].
    destruct (result (whoisEnrichmentIP _ _ _ _)) as [|a addresses]; cbn.
    + split_and!; [|naive_solver..]. split; [done|]. by intros (? & [= <-] & ?).
    + split_and!; [|naive_solver..]. split; [done|]. by intros (? & [= <-] & ?).
  - rewrite (enrichAbuseFromIP_primary _ _ _ _ _ _ Hrs) by done. cbn [result fst snd].
    split_and!; [|naive_solver..]. split; [|done]. intros _. by eexists.
Qed.

(** X17. When the record's prefix is not "unknown", city and country are
    those of the first location of the first located resource of the
    geolocation of that prefix, in this order, and both "unknown" when the
    lookup fails or has no such location. *)
Theorem known_prefix_location rs whois_Whois rangeKeys ipAddr i :
  let r := result (EnrichIP rs whois_Whois rangeKeys ipAddr i) in
  Prefix r ≠ "unknown" →
  (City r, Country r) =
    match GetGeolocationData rs (Prefix r) with
    | (_, Some _) => ("unknown", "unknown")
    | (geolocation, None) =>
        match LocatedResources geolocation with
        | [] => ("unknown", "unknown")
        | resource :: _ =>
            match Locations resource with
            | [] => ("unknown", "unknown")
            | location :: _ => (LocCity location, LocCountry location)
            end
        end
    end.
Proof.
  intros r. subst r. rewrite EnrichIP_run. cbv zeta.
  rewrite result_mk. cbn [Prefix City Country]. intros Hprefix.
  rewrite (enrichCityAndCountryFromPrefix_queried _ _ _ Hprefix).
  destruct (GetGeolocationData rs _) as [geolocation [msg|]]; [done|].
  rewrite result_mk. by destruct (LocatedResources geolocation) as [|[[|]]].
Qed.

Lemma known_prefix_location_witness :
  let r := result (EnrichIP Samples.shouting Samples.whoisNone Samples.inOrder
                            "198.51.100.7" (NewEnricher "198.51.100.7")) in
  (City r, Country r) = ("Delft", "NL").
Proof.
  apply (known_prefix_location Samples.shouting Samples.whoisNone Samples.inOrder
           "198.51.100.7" (NewEnricher "198.51.100.7")).
  discriminate.
Defined.

(** ** More about the extraction *)

Section Addresses.

Lemma Woven_substring s ms x : Woven s ms → x ∈ ms → ∃ a b, s = a ++ x ++ b.
Proof.
  induction 1 as [g|g m s ms Hs IH]; [by intros ?%elem_of_nil|].
  intros [->|Hx]%elem_of_cons; [by exists g, s|].
  destruct (IH Hx) as (a & b & ->). exists (g ++ m ++ a), b.
  by rewrite !append_assoc.
Qed.

Lemma FindAllString_woven r text : Woven text (FindAllString r text).
Proof.
  destruct (scan_woven r text 0) as (a & b & -> & Ha & Hw); [lia|].
  by destruct a.
Qed.

Lemma allChars_impl (q1 q2 : ascii → bool) s :
  (∀ c, q1 c = true → q2 c = true) → allChars q1 s = true → allChars q2 s = true.
Proof.
  intros Hq. induction s as [|c s IH]; [done|]. simpl.
  intros [Hc Hs]%andb_true_iff. by rewrite (Hq c Hc), IH.
Qed.

Lemma local_notSeparator c : local_part c = true → notSeparator c = true.
Proof. unfold notSeparator. by destruct (Ascii.eqb_spec c ";") as [->|]. Qed.

Lemma domain_notSeparator c : domain_part c = true → notSeparator c = true.
Proof. unfold notSeparator. by destruct (Ascii.eqb_spec c ";") as [->|]. Qed.

Lemma normalised_nil_iff found : normalised found = [] ↔ found = [].
Proof.
  split; [|by intros ->].
  destruct found as [|x found]; [done|]. intros Hnil.
  assert (strings.ToLower x ∈ normalised (x :: found)) as Hin
    by (apply elem_of_normalised; exists x; split; [done | left]).
  rewrite Hnil in Hin. by apply elem_of_nil in Hin.
Qed.

Lemma remove_dups_length (l : list string) :
  (length (remove_dups l) ≤ length l)%nat.
Proof.
  induction l as [|x l IH]; simpl; [done|].
  destruct (decide_rel elem_of x l); simpl; lia.
Qed.

Lemma normalised_length found :
  (length (normalised found) ≤ length found)%nat.
Proof.
  unfold normalised. rewrite Strings_perm.
  etrans; [apply remove_dups_length|]. by rewrite length_fmap.
Qed.

Lemma normalised_lower found y : y ∈ normalised found → strings.ToLower y = y.
Proof. intros (x & -> & _)%elem_of_normalised. apply ToLower_idempotent. Qed.

Lemma normalised_idempotent found : normalised (normalised found) = normalised found.
Proof.
  symmetry. apply normalised_unique.
  - apply normalised_sorted.
  - apply normalised_NoDup.
  - intros y. split.
    + intros Hy. exists y. by rewrite (normalised_lower found y).
    + intros (x & -> & Hx). by rewrite (normalised_lower found x).
Qed.

End Addresses.

(** X8. Every address the extraction gives is the lower-cased form of a
    piece of the whois text, is in lower case itself, and has the shape
    local@domain: a non-empty local part of the bytes allowed there, an
    "@", and a domain of letters, digits, hyphens and dots that starts with
    a letter or digit.  The ";" that joins the addresses never occurs
    inside one. *)
Theorem extracted_addresses_shape whois_Whois rangeKeys ip i text y :
  (∀ m, rangeKeys m ≡ₚ keys m) →
  whois_Whois ip = (text, None) →
  y ∈ result (whoisEnrichmentIP whois_Whois rangeKeys ip i) →
  (∃ a x b, text = a ++ x ++ b ∧ y = strings.ToLower x) ∧
  strings.ToLower y = y ∧
  allChars notSeparator y = true ∧
  ∃ l d, y = l ++ "@" ++ d ∧
    l ≠ "" ∧ allChars local_part l = true ∧
    allChars domain_part d = true ∧
    ∃ c d', d = String c d' ∧ alnum c = true.
Proof.
  intros Hperm Hw.
  rewrite (whoisEnrichmentIP_normalised _ _ Hperm _ _ _ Hw).
  intros (x & -> & Hx)%elem_of_normalised.
  pose proof (scan_matches _ _ _ _ Hx) as Hm.
  destruct (Woven_substring _ _ x (FindAllString_woven whoisRegexp text) Hx)
    as (a & b & Htext).
  apply whoisRegexp_shape in Hm as (l & d & -> & Hl & Hlocal & Hdomain & c & d' & -> & Hc).
  assert (allChars local_part (strings.ToLower l) = true) as Hlocal'
    by (apply ToLower_allChars; [apply lower_byte_local | done]).
  assert (allChars domain_part (strings.ToLower (String c d')) = true) as Hdomain'
    by (apply ToLower_allChars; [apply lower_byte_domain | done]).
  split_and!.
  - by exists a, (l ++ "@" ++ String c d'), b.
  - apply ToLower_idempotent.
  - rewrite !ToLower_app, !allChars_app.
    rewrite (allChars_impl _ _ _ local_notSeparator Hlocal').
    by rewrite (allChars_impl _ _ _ domain_notSeparator Hdomain').
  - exists (strings.ToLower l), (strings.ToLower (String c d')).
    split_and!; [by rewrite !ToLower_app | by apply ToLower_nonempty | done | done |].
    exists (strings.lower_byte c), (strings.ToLower d').
    split; [done | by apply lower_byte_alnum].
Qed.

Lemma extracted_addresses_shape_witness :
  ∃ l d, "ops@example.com" = l ++ "@" ++ d ∧
    l ≠ "" ∧ allChars local_part l = true ∧
    allChars domain_part d = true ∧
    ∃ c d', d = String c d' ∧ alnum c = true.
Proof.
  apply (extracted_addresses_shape Samples.whoisOps Samples.inOrder "203.0.113.5"
           (NewEnricher "203.0.113.5")
           "contact: Ops@Example.com, also OPS@example.com" "ops@example.com"
           (λ m, reflexivity (keys m)) eq_refl).
  vm_compute. left.
Defined.

(** X9. Running the general path of the extraction on its own result
    changes nothing: the result is already lower-cased, free of
    repetitions and sorted. *)
Theorem lowerSortUnique_idempotent rangeKeys found :
  (∀ m, rangeKeys m ≡ₚ keys m) →
  lowerSortUnique rangeKeys (lowerSortUnique rangeKeys found) =
    lowerSortUnique rangeKeys found.
Proof.
  intros Hperm. rewrite !(lowerSortUnique_normalised _ Hperm).
  apply normalised_idempotent.
Qed.

Lemma lowerSortUnique_idempotent_witness :
  lowerSortUnique Samples.reversed
    (lowerSortUnique Samples.reversed ["Zeta@x.com"; "alpha@X.com"; "zeta@x.com"]) =
  lowerSortUnique Samples.reversed ["Zeta@x.com"; "alpha@X.com"; "zeta@x.com"].
Proof.
  exact (lowerSortUnique_idempotent Samples.reversed
           ["Zeta@x.com"; "alpha@X.com"; "zeta@x.com"] reversed_perm).
Defined.

(** X10. The extraction gives no more addresses than the text has
    matches, and gives none exactly when the text has no match. *)
Theorem extraction_size whois_Whois rangeKeys ip i text :
  (∀ m, rangeKeys m ≡ₚ keys m) →
  whois_Whois ip = (text, None) →
  let found := FindAllString whoisRegexp text in
  let out := result (whoisEnrichmentIP whois_Whois rangeKeys ip i) in
  (length out ≤ length found)%nat ∧ (out = [] ↔ found = []).
Proof.
  intros Hperm Hw found out. subst out.
  rewrite (whoisEnrichmentIP_normalised _ _ Hperm _ _ _ Hw). fold found.
  split; [apply normalised_length | apply normalised_nil_iff].
Qed.

Lemma extraction_size_witness :
  let out := result (whoisEnrichmentIP Samples.whoisOps Samples.reversed
                       "203.0.113.5" (NewEnricher "203.0.113.5")) in
  (length out ≤ 2)%nat ∧ (out = [] ↔ ["Ops@Example.com"; "OPS@example.com"] = []).
Proof.
  exact (extraction_size Samples.whoisOps Samples.reversed "203.0.113.5"
           (NewEnricher "203.0.113.5")
           "contact: Ops@Example.com, also OPS@example.com" reversed_perm eq_refl).
Defined.

(** X11. The matches the scan hands to the normalisation are pieces of
    the text that follow one another in the text without overlap, and each
    of them is in the language of [whoisRegexp].  Where the scan finds no
    match at all, no piece of the text is in that language. *)
Theorem matches_in_order text :
  let found := FindAllString whoisRegexp text in
  Woven text found ∧
  Forall (Matches whoisRegexp) found ∧
  (found = [] → ∀ a p b, text = a ++ p ++ b → ¬ Matches whoisRegexp p).
Proof.
  intros found. subst found. split_and!.
  - apply FindAllString_woven.
  - apply Forall_forall. intros x Hx. by eapply scan_matches.
  - intros Hnone a p b -> Hp.
    apply (scan_finds whoisRegexp a p b Hp); [|done].
    apply whoisRegexp_shape in Hp as (l & d & -> & Hl & _). by destruct l.
Qed.

(** X12. When the primary source has no contact and the whois lookup
    gives a text, the source tag is "whois" exactly when some piece of the
    text is in the language of [whoisRegexp]. *)
Theorem fallback_iff_address_in_text rs whois_Whois rangeKeys ipAddr i text :
  (∀ m, rangeKeys m ≡ₚ keys m) →
  GetAbuseContacts rs ipAddr = ([], None) →
  whois_Whois ipAddr = (text, None) →
  Abuse_source (result (EnrichIP rs whois_Whois rangeKeys ipAddr i)) = "whois" ↔
  ∃ a p b, text = a ++ p ++ b ∧ Matches whoisRegexp p.
Proof.
  intros Hperm Hrs Hw. rewrite EnrichIP_run. cbv zeta.
  rewrite result_mk. cbn [Abuse_source].
  rewrite (enrichAbuseFromIP_fallback _ _ _ _ _ Hrs). cbv zeta.
  rewrite result_mk. cbn [Ip newEnrichInfo].
  rewrite (whoisEnrichmentIP_normalised _ _ Hperm _ _ _ Hw).
  pose proof (normalised_nil_iff (FindAllString whoisRegexp text)) as Hnil.
  destruct (normalised _) as [|y out] eqn:Hout; cbn.
  - split; [done|]. intros (a & p & b & -> & Hp). exfalso.
    apply (scan_finds whoisRegexp a p b Hp); [|by apply Hnil].
    apply whoisRegexp_shape in Hp as (l & d & -> & Hl & _). by destruct l.
  - split; [|done]. intros _.
    destruct (FindAllString whoisRegexp text) as [|x found] eqn:Hfound.
    { destruct Hnil as [_ Hnil]. by specialize (Hnil eq_refl). }
    assert (x ∈ FindAllString whoisRegexp text) as Hx by (rewrite Hfound; left).
    destruct (Woven_substring _ _ x (FindAllString_woven whoisRegexp text) Hx)
      as (a & b & Htext).
    exists a, x, b. split; [done|]. by eapply scan_matches.
Qed.

Lemma fallback_iff_address_in_text_witness :
  Abuse_source (result (EnrichIP Samples.blank Samples.whoisOps Samples.inOrder
                                 "203.0.113.5" (NewEnricher "203.0.113.5")))
    = "whois" ↔
  ∃ a p b, "contact: Ops@Example.com, also OPS@example.com" = a ++ p ++ b
           ∧ Matches whoisRegexp p.
Proof.
  exact (fallback_iff_address_in_text Samples.blank Samples.whoisOps
           Samples.inOrder "203.0.113.5" (NewEnricher "203.0.113.5")
           "contact: Ops@Example.com, also OPS@example.com"
           (λ m, reflexivity (keys m)) eq_refl eq_refl).
Defined.

(** ** The direct query *)

(** X13. [queryRipeStat] calls [http.Get] at most once: not at all for
    an empty query, for which it does nothing (no call, no read, no log
    entry), and once for any other query, before anything else it does,
    with the URL built from the resource and the query. *)
Theorem query_requests {Body Value : Type}
    (http_Get : string → Body * error)
    (ioutil_ReadAll : Body → string * error)
    (json_Unmarshal : string → option (gmap string Value) * error)
    (resource query : string) :
  let t := (queryRipeStat Body Value http_Get ioutil_ReadAll json_Unmarshal
                          resource query).2 in
  List.filter isHttpGet t =
    (if bool_decide (query = "") then [] else [HttpGet (queryURL resource query)]) ∧
  (t = [] ↔ query = "") ∧
  (query ≠ "" → head t = Some (HttpGet (queryURL resource query))).
Proof.
  intros t. subst t. unfold queryRipeStat.
  destruct (decide (query = "")) as [->|Hq]; [done|].
  rewrite !(bool_decide_eq_false_2 (query = "")) by done. cbv zeta.
  destruct (http_Get _) as [resp [msg|]]; [done|].
  destruct (ioutil_ReadAll resp) as [body [msg|]]; [done|].
  destruct (json_Unmarshal body) as [[data|] [msg|]]; done.
Qed.

Lemma query_requests_witness :
  let t := (queryRipeStat nat nat QuerySamples.getDown QuerySamples.readOk
                          QuerySamples.decodeOk "network-info" "203.0.113.5").2 in
  head t = Some (HttpGet "https://stat.ripe.net/data/network-info/data.json?resource=203.0.113.5&sourceapp=AS50559-DIVD_NL").
Proof.
  destruct (query_requests QuerySamples.getDown QuerySamples.readOk
              QuerySamples.decodeOk "network-info" "203.0.113.5")
    as (_ & _ & Hfirst).
  apply Hfirst. discriminate.
Defined.

(** X14. [queryRipeStat] returns data exactly when it returns no error:
    never both, never neither. *)
Theorem query_data_xor_error {Body Value : Type}
    (http_Get : string → Body * error)
    (ioutil_ReadAll : Body → string * error)
    (json_Unmarshal : string → option (gmap string Value) * error)
    (resource query : string) :
  let returned := (queryRipeStat Body Value http_Get ioutil_ReadAll json_Unmarshal
                                 resource query).1 in
  returned.1 = None ↔ returned.2 ≠ None.
Proof.
  intros returned. subst returned. unfold queryRipeStat.
  destruct (bool_decide _); [done|]. cbv zeta.
  destruct (http_Get _) as [resp [msg|]]; [done|].
  destruct (ioutil_ReadAll resp) as [body [msg|]]; [done|].
  destruct (json_Unmarshal body) as [[data|] [msg|]]; cbn; naive_solver.
Qed.

(** X15. The response body is closed exactly once when the GET was made
    and succeeded, whatever happens afterwards, and not at all otherwise;
    closing is the last thing the query does and comes after the one read
    of the body. *)
Theorem query_closes_body {Body Value : Type}
    (http_Get : string → Body * error)
    (ioutil_ReadAll : Body → string * error)
    (json_Unmarshal : string → option (gmap string Value) * error)
    (resource query : string) :
  let t := (queryRipeStat Body Value http_Get ioutil_ReadAll json_Unmarshal
                          resource query).2 in
  let opened :=
    bool_decide (query ≠ "" ∧ (http_Get (queryURL resource query)).2 = None) in
  occurrences CloseBody t = (if opened then 1 else 0) ∧
  occurrences ReadBody t = (if opened then 1 else 0) ∧
  (opened = true → last t = Some CloseBody ∧
     ∃ t1 t2, t = (t1 ++ ReadBody :: t2 ++ [CloseBody])%list).
Proof.
  intros t opened. subst t opened. unfold queryRipeStat.
  destruct (decide (query = "")) as [->|Hq].
  { rewrite (bool_decide_eq_true_2 ("" = "")) by done.
    rewrite bool_decide_eq_false_2 by (by intros [? _]). done. }
  rewrite (bool_decide_eq_false_2 (query = "")) by done. cbv zeta.
  destruct (http_Get _) as [resp [msg|]]; cbn [snd].
  { rewrite bool_decide_eq_false_2 by (by intros [_ ?]). done. }
  rewrite bool_decide_eq_true_2 by done.
  destruct (ioutil_ReadAll resp) as [body [msg|]].
  { split_and!; [done | done |]. intros _. split; [done|].
    by eexists [_], [_]. }
  destruct (json_Unmarshal body) as [[data|] [msg|]];
    (split_and!; [done | done |]; intros _; (split; [done|]));
    first [ by eexists [_], [_] | by eexists [_], [] ].
Qed.

Lemma query_closes_body_witness :
  let t := (queryRipeStat nat nat QuerySamples.getOk QuerySamples.readOk
                          QuerySamples.decodeNull "as-overview" "64500").2 in
  last t = Some CloseBody ∧
  ∃ t1 t2, t = (t1 ++ ReadBody :: t2 ++ [CloseBody])%list.
Proof.
  destruct (query_closes_body QuerySamples.getOk QuerySamples.readOk
              QuerySamples.decodeNull "as-overview" "64500")
    as (_ & _ & Hlast).
  apply Hlast. reflexivity.
Defined.

(** X16. [queryRipeStat] returns data [d] without error exactly when the
    query is not empty and the GET, the read of the body and the decoding
    all succeed, the decoding giving [d] (an object, not [nil]). *)
Theorem query_success_iff {Body Value : Type}
    (http_Get : string → Body * error)
    (ioutil_ReadAll : Body → string * error)
    (json_Unmarshal : string → option (gmap string Value) * error)
    (resource query : string) d :
  (queryRipeStat Body Value http_Get ioutil_ReadAll json_Unmarshal
                 resource query).1 = (Some d, None) ↔
  query ≠ "" ∧
  ∃ resp body,
    http_Get (queryURL resource query) = (resp, None) ∧
    ioutil_ReadAll resp = (body, None) ∧
    json_Unmarshal body = (Some d, None).
Proof.
  unfold queryRipeStat.
  destruct (decide (query = "")) as [->|Hq]; [by split; [|intros [? _]]|].
  rewrite bool_decide_eq_false_2 by done. cbv zeta.
  destruct (http_Get _) as [resp [msg|]] eqn:Hget;
    [by split; [|intros (_ & ? & ? & [=] & _)]|].
  destruct (ioutil_ReadAll resp) as [body [msg|]] eqn:Hread;
    [|destruct (json_Unmarshal body) as [[data|] [msg|]] eqn:Hjson]; cbn;
    (split;
     [ first [ done | intros [= ->]; split; [done|]; by exists resp, body ]
     | intros (_ & resp' & body' & ? & ? & ?); congruence ]).
Qed.

Lemma query_success_iff_witness :
  (queryRipeStat nat nat QuerySamples.getOk QuerySamples.readOk
                 QuerySamples.decodeOk "as-overview" "64500").1
    = (Some {[ "status" := 1 ]}, None).
Proof.
  apply (query_success_iff QuerySamples.getOk QuerySamples.readOk
           QuerySamples.decodeOk "as-overview" "64500").
  split; [discriminate|]. by exists 7, "{status: ok}".
Defined.
